(** * ubip::buffer — a single-producer/single-consumer bip buffer

    Shallow embedding of [include/ubip/buffer.hpp] and the properties of its
    control block, producer view ([buffer_writer]) and consumer view
    ([buffer_reader]).

    - [std::size_t] is the 64-bit unsigned type of an LP64 target: a [Z] in
      [0, 2^64), every addition and subtraction reduced modulo [2^64].
    - The three shared positions are [std::atomic<std::size_t>]; each access
      through the control block is recorded as a [Load] or [Store] event with
      its memory order, in program order.
    - A [span] is a pointer and a length; the pointer is an offset from
      [buffer_], or null for the default constructed span ([return {}]).
    - [%] by zero is undefined behaviour: the embedding of [consume] fails
      ([None]) there. *)

From Stdlib Require Import ZArith Lia List Bool.
From stdpp Require Import base list.
Import ListNotations.

#[local] Open Scope Z_scope.

(** ** std::size_t *)

Definition SIZE_MAX : Z := 2 ^ 64 - 1.

(** Reduction of an exact integer to the value the machine stores. *)
Definition wrap (z : Z) : Z := z mod 2 ^ 64.

Definition size_add (a b : Z) : Z := wrap (a + b).
Definition size_sub (a b : Z) : Z := wrap (a - b).

(** The values a [std::size_t] argument can take. *)
Definition size_t (z : Z) : Prop := 0 <= z < 2 ^ 64.

(** ** Atomic accesses *)

(** [std::memory_order]. *)
Module memory_order.
Inductive t : Type := relaxed | consume | acquire | release | acq_rel | seq_cst.
End memory_order.

Abbreviation seq_cst := memory_order.seq_cst.

Inductive position : Type := Read | Write | Watermark.

Inductive access : Type :=
| Load (p : position) (mo : memory_order.t) (v : Z)
| Store (p : position) (mo : memory_order.t) (v : Z).

Definition order_of (e : access) : memory_order.t :=
  match e with Store _ mo _ => mo | Load _ mo _ => mo end.

(** ** Spans *)

Record span : Type := mk_span { data : option Z; size : Z }.

(** [return {}]: the default constructed span, null and of length 0. *)
Definition empty_span : span := {| data := None; size := 0 |}.

(** ** namespace detail *)

Module detail.

Definition max (a b : Z) : Z := if a >? b then a else b.

Definition min (a b : Z) : Z := if a <? b then a else b.

Record control_block : Type := mk_control_block {
  capacity_ : Z;
  read_ : Z;
  write_ : Z;
  watermark_ : Z
}.

End detail.

Export detail.

(** The control block together with the one private field of the producer
    view, [buffer_writer::prepared_].  The consumer view has no field of its
    own besides the pointer to the control block. *)
Record buffer_state : Type := mk_state {
  block : control_block;
  prepared_ : Z
}.

Definition capacity (s : buffer_state) : Z := capacity_ (block s).
Definition read (s : buffer_state) : Z := read_ (block s).
Definition write (s : buffer_state) : Z := write_ (block s).
Definition watermark (s : buffer_state) : Z := watermark_ (block s).
Definition prepared (s : buffer_state) : Z := prepared_ s.

(** ** The monad of member functions

    A member function maps the state to a result, a new state and the atomic
    accesses it made, or to [None] when it runs into undefined behaviour. *)

Definition M (A : Type) : Type :=
  buffer_state -> option (A * buffer_state * list access).

Definition ret {A} (a : A) : M A := fun s => Some (a, s, []).

Definition bind {A B} (m : M A) (k : A -> M B) : M B := fun s =>
  match m s with
  | None => None
  | Some (a, s1, t1) =>
      match k a s1 with
      | None => None
      | Some (b, s2, t2) => Some (b, s2, t1 ++ t2)
      end
  end.

Definition undefined_behaviour {A} : M A := fun _ => None.

Declare Scope member_scope.
Delimit Scope member_scope with member.
Notation "x <- m ;; k" := (bind m (fun x => k))
  (at level 20, m at level 99, k at level 200, only parsing)
  : member_scope.
Notation "m ;; k" := (bind m (fun _ => k))
  (at level 100, k at level 200, only parsing, right associativity)
  : member_scope.
#[local] Open Scope member_scope.

(** *** control_block accessors *)

Definition with_read (v : Z) (s : buffer_state) : buffer_state :=
  {| block := {| capacity_ := capacity s; read_ := v;
                 write_ := write s; watermark_ := watermark s |};
     prepared_ := prepared s |}.

Definition with_write (v : Z) (s : buffer_state) : buffer_state :=
  {| block := {| capacity_ := capacity s; read_ := read s;
                 write_ := v; watermark_ := watermark s |};
     prepared_ := prepared s |}.

Definition with_watermark (v : Z) (s : buffer_state) : buffer_state :=
  {| block := {| capacity_ := capacity s; read_ := read s;
                 write_ := write s; watermark_ := v |};
     prepared_ := prepared s |}.

Definition with_prepared (v : Z) (s : buffer_state) : buffer_state :=
  {| block := block s; prepared_ := v |}.

Definition get_read : M Z :=
  fun s => Some (read s, s, [Load Read seq_cst (read s)]).

Definition set_read (new_value : Z) : M unit :=
  fun s => Some (tt, with_read new_value s, [Store Read seq_cst new_value]).

Definition get_write : M Z :=
  fun s => Some (write s, s, [Load Write seq_cst (write s)]).

Definition set_write (w : Z) : M unit :=
  fun s => Some (tt, with_write w s, [Store Write seq_cst w]).

Definition get_watermark : M Z :=
  fun s => Some (watermark s, s, [Load Watermark seq_cst (watermark s)]).

Definition set_watermark (w : Z) : M unit :=
  fun s => Some (tt, with_watermark w s, [Store Watermark seq_cst w]).

Definition get_capacity : M Z := fun s => Some (capacity s, s, []).

Definition const_span (start_offset sz : Z) : span :=
  {| data := Some start_offset; size := sz |}.

Definition mut_span (start_offset sz : Z) : span :=
  {| data := Some start_offset; size := sz |}.

(** [buffer_writer::prepared_] is a plain member: no atomic access. *)
Definition get_prepared : M Z := fun s => Some (prepared s, s, []).

Definition set_prepared (v : Z) : M unit :=
  fun s => Some (tt, with_prepared v s, []).

(** ** buffer_reader *)

Definition values : M span :=
  read <- get_read ;;
  write <- get_write ;;
  if write >? read then
    let num_values := size_sub write read in
    ret (const_span read num_values)
  else if write <? read then
    watermark <- get_watermark ;;
    if read =? watermark then
      ret (const_span 0 write)
    else
      let num_values := size_sub watermark read in
      ret (const_span read num_values)
  else ret empty_span.

Definition consume (amount : Z) : M unit :=
  read <- get_read ;;
  write <- get_write ;;
  if read =? write then ret tt
  else if write >? read then
    let new_read := min (size_add read amount) write in
    set_read new_read
  else
    watermark <- get_watermark ;;
    let available_for_consumption := size_add (size_sub watermark read) write in
    let amount := min available_for_consumption amount in
    if watermark =? 0 then undefined_behaviour
    else
      let new_read := size_add read amount mod watermark in
      set_read new_read.

(** ** buffer_writer *)

Definition prepare (amount : Z) : M span :=
  prepared <- get_prepared ;;
  if negb (prepared =? 0) then ret empty_span
  else
    read <- get_read ;;
    write <- get_write ;;
    if write >=? read then
      capacity <- get_capacity ;;
      let left_before_capacity := size_sub capacity write in
      if left_before_capacity >=? amount then
        set_prepared amount ;;
        set_watermark (size_add write amount) ;;
        ret (mut_span write amount)
      else if read >? amount then
        set_watermark write ;;
        set_write 0 ;;
        set_prepared amount ;;
        ret (mut_span 0 amount)
      else ret empty_span
    else if size_add write amount <? read then
      set_prepared amount ;;
      ret (mut_span write amount)
    else ret empty_span.

Definition commit (amount : Z) : M unit :=
  prepared <- get_prepared ;;
  if (prepared =? 0) || (amount =? 0) then ret tt
  else
    let amount := min amount prepared in
    set_prepared (size_sub prepared amount) ;;
    write <- get_write ;;
    set_write (size_add write amount).

(** ** buffer<T, N>

    The constructor builds the control block with capacity [N] and the three
    positions at 0; the writer handed out starts with [prepared_ = 0]. *)

Definition fresh (N : Z) : buffer_state :=
  {| block := {| capacity_ := N; read_ := 0; write_ := 0; watermark_ := 0 |};
     prepared_ := 0 |}.

(** ** Running member functions *)

Definition result_of {A} (r : option (A * buffer_state * list access))
  : option A :=
  match r with Some (a, _, _) => Some a | None => None end.

Definition state_of {A} (r : option (A * buffer_state * list access))
  : option buffer_state :=
  match r with Some (_, s, _) => Some s | None => None end.

Definition trace_of {A} (r : option (A * buffer_state * list access))
  : list access :=
  match r with Some (_, _, t) => t | None => [] end.

(** A call of one of the four member functions of the two views. *)
Inductive call : Type :=
| Prepare (amount : Z)
| Commit (amount : Z)
| Values
| Consume (amount : Z).

Definition amount_of (c : call) : Z :=
  match c with
  | Prepare a | Commit a | Consume a => a
  | Values => 0
  end.

Definition exec (c : call) (s : buffer_state) : option buffer_state :=
  match c with
  | Prepare a => state_of (prepare a s)
  | Commit a => state_of (commit a s)
  | Values => state_of (values s)
  | Consume a => state_of (consume a s)
  end.

Fixpoint run (cs : list call) (s : buffer_state) : option buffer_state :=
  match cs with
  | [] => Some s
  | c :: cs' =>
      match exec c s with
      | Some s' => run cs' s'
      | None => None
      end
  end.

Definition st (N r w m p : Z) : buffer_state :=
  {| block := {| capacity_ := N; read_ := r; write_ := w; watermark_ := m |};
     prepared_ := p |}.

(** ** Reachable states

    [reachable_by ok N s]: [s] is reached from the fresh buffer of capacity
    [N] by calls of the four member functions, each with a [std::size_t]
    argument, each permitted by [ok] in the state it is made in, and none of
    them running into undefined behaviour. *)

Inductive reachable_by (ok : buffer_state -> call -> Prop) (N : Z)
  : buffer_state -> Prop :=
| reachable_fresh : reachable_by ok N (fresh N)
| reachable_call s c s' :
    reachable_by ok N s ->
    size_t (amount_of c) ->
    ok s c ->
    exec c s = Some s' ->
    reachable_by ok N s'.

(** Every call of a run is made with a [std::size_t] argument and permitted
    by [ok] in the state it is made in. *)
Fixpoint permitted (ok : buffer_state -> call -> Prop) (cs : list call)
  (s : buffer_state) : Prop :=
  match cs with
  | [] => True
  | c :: cs' =>
      size_t (amount_of c) /\ ok s c /\
      match exec c s with
      | Some s' => permitted ok cs' s'
      | None => True
      end
  end.

(** Any call at all. *)
Definition any_call (s : buffer_state) (c : call) : Prop := True.

(** Calls whose [prepare] requests stay representable: the sum
    [write + amount] that [prepare] computes does not exceed [SIZE_MAX]. *)
Definition no_overflow (s : buffer_state) (c : call) : Prop :=
  match c with
  | Prepare a => write s + a < 2 ^ 64
  | _ => True
  end.

Definition reachable : Z -> buffer_state -> Prop := reachable_by any_call.

(** [T buffer_[N]] is an array object: [N] is positive and, an object being
    at most [PTRDIFF_MAX] bytes, below [2^63]. *)
Definition valid_capacity (N : Z) : Prop := 0 < N < 2 ^ 63.

(** The invariant of the states reached without overflow. *)
Record inv (s : buffer_state) : Prop := mk_inv {
  inv_read : 0 <= read s <= capacity s;
  inv_write : 0 <= write s;
  inv_prepared : 0 <= prepared s;
  inv_reserved : write s + prepared s <= capacity s;
  inv_watermark : 0 <= watermark s <= capacity s;
  inv_wrapped :
    write s < read s ->
    read s <= watermark s /\ write s + prepared s < read s
}.

(** ** The member functions in the words of the specification

    The formulas of the specification are read twice: with the arithmetic of
    [std::size_t] ([size_add], [size_sub]) and with exact integers ([Z.add],
    [Z.sub]); [plus] and [minus] stand for either. *)

Module Spec.
Section Arithmetic.

Variables plus minus : Z -> Z -> Z.

(** The region at offset [offset] of length [len]. *)
Definition region (offset len : Z) : span :=
  {| data := Some offset; size := len |}.

(** The region [[from, to)]. *)
Definition interval (from to : Z) : span := region from (minus to from).

(** What a call returns, the state it leaves, and the positions it
    publishes, in order. *)
Record outcome : Type := mk_outcome {
  returned : span;
  after : buffer_state;
  published : list (position * Z)
}.

Definition prepare_spec (amount : Z) (s : buffer_state) : outcome :=
  if (write s >=? read s) && (minus (capacity s) (write s) >=? amount) then
    {| returned := region (write s) amount;
       after := st (capacity s) (read s) (write s)
                  (plus (write s) amount) amount;
       published := [(Watermark, plus (write s) amount)] |}
  else if (write s >=? read s) && (read s >? amount) then
    {| returned := region 0 amount;
       after := st (capacity s) (read s) 0 (write s) amount;
       published := [(Watermark, write s); (Write, 0)] |}
  else if (write s <? read s) && (plus (write s) amount <? read s) then
    {| returned := region (write s) amount;
       after := st (capacity s) (read s) (write s) (watermark s) amount;
       published := [] |}
  else
    {| returned := empty_span; after := s; published := [] |}.

(** [prepare] has no room: a reservation is pending, or neither the tail
    space nor the front region holds [amount] elements. *)
Definition prepare_fails (amount : Z) (s : buffer_state) : Prop :=
  prepared s <> 0 \/
  (write s >= read s /\
   minus (capacity s) (write s) < amount /\ read s <= amount) \/
  (write s < read s /\ plus (write s) amount >= read s).

Definition values_spec (s : buffer_state) : span :=
  if write s >? read s then interval (read s) (write s)
  else if write s =? read s then empty_span
  else if negb (read s =? watermark s) then interval (read s) (watermark s)
  else interval 0 (write s).

Definition commit_spec (amount : Z) (s : buffer_state) : buffer_state :=
  if (prepared s =? 0) || (amount =? 0) then s
  else
    let clamped := Z.min amount (prepared s) in
    with_write (plus (write s) clamped)
      (with_prepared (minus (prepared s) clamped) s).

End Arithmetic.
End Spec.

(** The publications of a trace: position and value of each store, in
    program order. *)
Definition published_by (t : list access) : list (position * Z) :=
  flat_map (fun e => match e with
                     | Store p _ v => [(p, v)]
                     | Load _ _ _ => []
                     end) t.

(** ** Storage and the elements behind a span *)

Section Storage.

Context {T : Type}.

(** [span[i] = x] for each element of [xs] in turn, from index 0.  Writing
    through the null span or past the end of [buffer_] is undefined. *)
Definition span_write (sp : span) (xs : list T) (buffer_ : list T)
  : option (list T) :=
  match data sp with
  | None => None
  | Some offset =>
      if (Z.of_nat (length xs) <=? size sp)
         && (0 <=? offset)
         && (offset + size sp <=? Z.of_nat (length buffer_))
      then Some (list_inserts (Z.to_nat offset) xs buffer_)
      else None
  end.

(** The elements a span views, first to last. *)
Definition span_read (sp : span) (buffer_ : list T) : option (list T) :=
  match data sp with
  | None => if size sp =? 0 then Some [] else None
  | Some offset =>
      if (0 <=? offset) && (0 <=? size sp)
         && (offset + size sp <=? Z.of_nat (length buffer_))
      then Some (take (Z.to_nat (size sp)) (drop (Z.to_nat offset) buffer_))
      else None
  end.

(** One cycle: the producer prepares a region for [xs], writes [xs] into
    it and commits; the consumer looks at [values()] and consumes as many
    elements.  The cycle stops ([None]) when [prepare] returns an empty
    region.  It yields the region [prepare] returned and the elements the
    consumer saw. *)
Definition cycle (xs : list T) (sb : buffer_state * list T)
  : option (buffer_state * list T * (span * list T)) :=
  let '(s, buffer_) := sb in
  let a := Z.of_nat (length xs) in
  match prepare a s with
  | Some (sp, s1, _) =>
      if size sp =? 0 then None
      else
        match span_write sp xs buffer_ with
        | Some buffer1 =>
            match commit a s1 with
            | Some (_, s2, _) =>
                match values s2 with
                | Some (v, s3, _) =>
                    match span_read v buffer1 with
                    | Some seen =>
                        match consume a s3 with
                        | Some (_, s4, _) => Some (s4, buffer1, (sp, seen))
                        | None => None
                        end
                    | None => None
                    end
                | None => None
                end
            | None => None
            end
        | None => None
        end
  | None => None
  end.

Fixpoint cycles (xss : list (list T)) (sb : buffer_state * list T)
  : option (buffer_state * list T * list (span * list T)) :=
  match xss with
  | [] => Some (sb, [])
  | xs :: rest =>
      match cycle xs sb with
      | Some (s', buffer', seen) =>
          match cycles rest (s', buffer') with
          | Some (sb'', seens) => Some (sb'', seen :: seens)
          | None => None
          end
      | None => None
      end
  end.

End Storage.

(** Whether [prepare(a)] finds room when the buffer is empty with
    [read == write == p]: in the tail, or in front of [read]. *)
Definition fits (N p a : Z) : bool := (a <=? N - p) || (a <? p).

(** Where a cycle of [a] elements leaves [read == write]. *)
Definition next_position (N p a : Z) : Z :=
  if a <=? N - p then p + a else a.

(** Whether every cycle of a sequence finds room, from position [p] on. *)
Fixpoint all_fit (N p : Z) (amounts : list Z) : bool :=
  match amounts with
  | [] => true
  | a :: rest => (0 <? a) && fits N p a && all_fit N (next_position N p a) rest
  end.

(** The regions a sequence of cycles is handed, from position [p] on. *)
Fixpoint regions (N p : Z) (amounts : list Z) : list span :=
  match amounts with
  | [] => []
  | a :: rest =>
      mut_span (if a <=? N - p then p else 0) a
        :: regions N (next_position N p a) rest
  end.

(** The number of elements written and not yet consumed. *)
Definition available (s : buffer_state) : Z :=
  if write s >=? read s then write s - read s
  else watermark s - read s + write s.

(** The empty buffer with both positions at [p]. *)
Definition empty_at (N p : Z) (s : buffer_state) : Prop :=
  capacity s = N /\ read s = p /\ write s = p /\ prepared s = 0.

(** The amounts of a sequence of cycles. *)
Definition amounts_of {T : Type} (xss : list (list T)) : list Z :=
  map (fun xs => Z.of_nat (length xs)) xss.

(** The accesses a call makes. *)
Definition trace_of_call (c : call) (s : buffer_state) : list access :=
  match c with
  | Prepare a => trace_of (prepare a s)
  | Commit a => trace_of (commit a s)
  | Values => trace_of (values s)
  | Consume a => trace_of (consume a s)
  end.

(** The shared positions after the stores of a trace. *)
Definition apply_access (s : buffer_state) (e : access) : buffer_state :=
  match e with
  | Store Read _ v => with_read v s
  | Store Write _ v => with_write v s
  | Store Watermark _ v => with_watermark v s
  | Load _ _ _ => s
  end.

Definition apply_trace (t : list access) (s : buffer_state) : buffer_state :=
  fold_left apply_access t s.

(** Calls that wrap the buffer of capacity 10 once: [read = 8], [write = 1],
    [watermark = 10], nothing pending. *)
Definition wrapped_calls : list call :=
  [Prepare 10; Commit 10; Consume 8; Prepare 1; Commit 1].

(** The overflowing request in the wrapped state, committed in two steps
    around a [consume]. *)
Definition overflow_calls : list call :=
  wrapped_calls
  ++ [Prepare SIZE_MAX; Commit 11; Consume 4; Commit (SIZE_MAX - 11)].

(** A second request that overflows, placed at the tail. *)
Definition zero_watermark_calls : list call :=
  overflow_calls
  ++ [Prepare 11; Commit 11; Consume 0;
      Prepare (SIZE_MAX - 10); Commit (SIZE_MAX - 10)].

(** ** buffer<T, N>: the owner of storage and control block

    [buffer_] is the array [T buffer_[N]], [control_block_] the control block
    built over it, [rw_taken_] the flag of [take_reader_writer].  The pair of
    views handed out is the state the member functions of the views run on:
    the control block, and a writer with [prepared_ = 0]. *)

Module buffer.

Record t (T : Type) : Type := mk {
  buffer_ : list T;
  control_block_ : control_block;
  rw_taken_ : bool
}.

Arguments mk {T}.
Arguments buffer_ {T}.
Arguments control_block_ {T}.
Arguments rw_taken_ {T}.

(** [buffer()]: [control_block_(N, buffer_)], [rw_taken_ = false]; the
    elements of the array are whatever [storage] holds. *)
Definition construct {T : Type} (N : Z) (storage : list T) : t T :=
  {| buffer_ := storage;
     control_block_ := {| capacity_ := N; read_ := 0; write_ := 0;
                          watermark_ := 0 |};
     rw_taken_ := false |}.

(** [reader_writer_pair(control_block_)]: reader and writer over the control
    block, the writer with nothing prepared. *)
Definition pair_type {T : Type} (b : t T) : buffer_state :=
  {| block := control_block_ b; prepared_ := 0 |}.

Definition take_reader_writer {T : Type} (b : t T)
  : option buffer_state * t T :=
  if rw_taken_ b then (None, b)
  else
    let b' := {| buffer_ := buffer_ b; control_block_ := control_block_ b;
                 rw_taken_ := true |} in
    (Some (pair_type b'), b').

(** [n] calls of [take_reader_writer] in a row: what each returned, and the
    buffer after the last. *)
Fixpoint take_repeatedly {T : Type} (n : nat) (b : t T)
  : list (option buffer_state) * t T :=
  match n with
  | O => ([], b)
  | S n' =>
      let '(r, b') := take_reader_writer b in
      let '(rs, b'') := take_repeatedly n' b' in
      (r :: rs, b'')
  end.

End buffer.

(** ** The elements between positions

    [slice from to buffer_] is the part [[from, to)] of the storage;
    [contents] lists the elements written and not yet consumed, in the order
    [values] and [consume] pass them: [[read, write)], or, when [write] has
    wrapped, the tail [[read, watermark)] and then the front [[0, write)]. *)

Section Contents.

Context {T : Type}.

Definition slice (from to : Z) (buffer_ : list T) : list T :=
  take (Z.to_nat (to - from)) (drop (Z.to_nat from) buffer_).

Definition contents (s : buffer_state) (buffer_ : list T) : list T :=
  if write s <? read s
  then slice (read s) (watermark s) buffer_ ++ slice 0 (write s) buffer_
  else slice (read s) (write s) buffer_.

(** One round of the consumer: look at [values()], take the elements, and
    consume as many as were shown. *)
Definition drain_step (s : buffer_state) (buffer_ : list T)
  : option (list T * buffer_state) :=
  match values s with
  | Some (v, s1, _) =>
      match span_read v buffer_ with
      | Some seen =>
          match consume (size v) s1 with
          | Some (_, s2, _) => Some (seen, s2)
          | None => None
          end
      | None => None
      end
  | None => None
  end.

(** Two rounds of the consumer. *)
Definition drain (s : buffer_state) (buffer_ : list T)
  : option (list T * buffer_state) :=
  match drain_step s buffer_ with
  | Some (seen1, s1) =>
      match drain_step s1 buffer_ with
      | Some (seen2, s2) => Some (seen1 ++ seen2, s2)
      | None => None
      end
  | None => None
  end.

(** The producer reserves room for [xs], writes [xs] into the region and
    commits all of it; [None] when [prepare] returns the empty span or the
    write is undefined. *)
Definition push (xs : list T) (sb : buffer_state * list T)
  : option (buffer_state * list T) :=
  let '(s, buffer_) := sb in
  let a := Z.of_nat (length xs) in
  match prepare a s with
  | Some (sp, s1, _) =>
      match data sp with
      | None => None
      | Some _ =>
          match span_write sp xs buffer_ with
          | Some buffer1 =>
              match commit a s1 with
              | Some (_, s2, _) => Some (s2, buffer1)
              | None => None
              end
          | None => None
          end
      end
  | None => None
  end.

End Contents.

(** The positions a trace stores to. *)
Definition stored_positions (t : list access) : list position :=
  map fst (published_by t).

(** ** Proof automation *)

(** Comparisons as the code writes them, turned into propositions. *)
Ltac bool_to_prop :=
  repeat match goal with
  | H : negb _ = true |- _ => apply negb_true_iff in H
  | H : negb _ = false |- _ => apply negb_false_iff in H
  | H : (_ || _) = true |- _ => apply orb_true_iff in H
  | H : (_ || _) = false |- _ => apply orb_false_iff in H; destruct H
  | H : (_ && _) = true |- _ => apply andb_true_iff in H; destruct H
  | H : (_ && _) = false |- _ => apply andb_false_iff in H
  | H : (_ >? _) = _ |- _ => rewrite Z.gtb_ltb in H
  | H : (_ >=? _) = _ |- _ => rewrite Z.geb_leb in H
  | H : (_ <? _) = true |- _ => apply Z.ltb_lt in H
  | H : (_ <? _) = false |- _ => apply Z.ltb_ge in H
  | H : (_ <=? _) = true |- _ => apply Z.leb_le in H
  | H : (_ <=? _) = false |- _ => apply Z.leb_gt in H
  | H : (_ =? _) = true |- _ => apply Z.eqb_eq in H
  | H : (_ =? _) = false |- _ => apply Z.eqb_neq in H
  end.

Ltac member_unfold :=
  cbv [prepare commit consume values bind ret undefined_behaviour
       get_read set_read get_write set_write get_watermark set_watermark
       get_capacity get_prepared set_prepared exec state_of result_of
       trace_of] in *.

(** Follows every branch of a member function. *)
Ltac member_cases :=
  member_unfold;
  repeat match goal with
  | |- context [if ?b then _ else _] => destruct b eqn:?; cbn [app]
  | H : context [if ?b then _ else _] |- _ => destruct b eqn:?; cbn [app] in H
  end;
  bool_to_prop.

Ltac size_arith :=
  unfold size_add, size_sub, wrap, size_t, min, max in *;
  change (2 ^ 64) with 18446744073709551616 in *;
  change (2 ^ 63) with 9223372036854775808 in *.

Ltac fields :=
  unfold with_read, with_write, with_watermark, with_prepared,
    capacity, read, write, watermark, prepared in *;
  cbn [block prepared_ capacity_ read_ write_ watermark_] in *.

Ltac arith := size_arith; fields; Z.div_mod_to_equations; lia.

(** Evaluates a member function on a state given by its fields, closing
    the branches the hypotheses exclude. *)
Ltac member_eval :=
  unfold st in *; member_cases; fields;
  try (exfalso; arith); repeat f_equal; try arith.

(** ** Arithmetic of std::size_t *)

Lemma two_64 : 2 ^ 64 = 18446744073709551616.
Proof. reflexivity. Qed.

Lemma two_63 : 2 ^ 63 = 9223372036854775808.
Proof. reflexivity. Qed.

Lemma prepare_total a s : exists sp s' t, prepare a s = Some (sp, s', t).
Proof. member_cases; eauto. Qed.

Lemma wrap_small z : 0 <= z < 2 ^ 64 -> wrap z = z.
Proof. intros H. unfold wrap. now apply Z.mod_small. Qed.

Lemma min_is_Zmin a b : min a b = Z.min a b.
Proof. unfold min. destruct (Z.ltb_spec a b); lia. Qed.

(** ** prepare *)

(** [prepare] in the words of the specification, with the arithmetic of
    [std::size_t]: for every state and every amount, the empty request
    included. *)
Lemma prepare_is_spec a s :
  prepared s = 0 ->
  let o := Spec.prepare_spec size_add size_sub a s in
  exists t,
    prepare a s = Some (Spec.returned o, Spec.after o, t) /\
    published_by t = Spec.published o.
Proof.
  intros Hp o. subst o. destruct s as [[c r w m] p].
  unfold Spec.prepare_spec, st. member_unfold. fields. subst p.
  cbv [Z.eqb negb block prepared_ capacity_ read_ write_ watermark_].
  destruct (w >=? r) eqn:Hwr; cbn [andb].
  - destruct (size_sub c w >=? a) eqn:Htail.
    + eexists. split; reflexivity.
    + destruct (r >? a) eqn:Hfront.
      * eexists. split; reflexivity.
      * rewrite Z.geb_leb in Hwr. apply Z.leb_le in Hwr.
        destruct (Z.ltb_spec w r); [lia|]. cbn [andb].
        eexists. split; reflexivity.
  - rewrite Z.geb_leb in Hwr. apply Z.leb_gt in Hwr.
    destruct (Z.ltb_spec w r); [|lia]. cbn [andb].
    destruct (size_add w a <? r); eexists; split; reflexivity.
Qed.

(** With the state inside the storage and the request representable, the
    arithmetic of [std::size_t] in [prepare] is exact. *)
Lemma prepare_spec_exact a s :
  0 <= write s <= capacity s -> capacity s < 2 ^ 64 ->
  0 <= a -> write s + a < 2 ^ 64 ->
  Spec.prepare_spec size_add size_sub a s = Spec.prepare_spec Z.add Z.sub a s.
Proof.
  intros Hw Hc Ha Hsum. unfold Spec.prepare_spec, size_add, size_sub.
  rewrite !wrap_small by lia. reflexivity.
Qed.

(** X23. With no reservation pending and [amount > 0], [prepare(amount)] is
    the case analysis of the specification: tail placement (watermark set to
    [write + amount]), else wraparound placement (watermark set to the old
    [write], then [write] set to 0), else placement below [read] in the
    wrapped state, else failure with an empty region.  The state left is
    given field by field.  The formulas are those of the code in
    [std::size_t] arithmetic; they are the exact integer formulas whenever
    [write <= capacity] and [write + amount] is representable. *)
Theorem prepare_refines_spec s a :
  prepared s = 0 -> 0 < a ->
  (exists t,
     let o := Spec.prepare_spec size_add size_sub a s in
     prepare a s = Some (Spec.returned o, Spec.after o, t) /\
     published_by t = Spec.published o) /\
  (0 <= write s <= capacity s -> capacity s < 2 ^ 64 ->
   write s + a < 2 ^ 64 ->
   exists t,
     let o := Spec.prepare_spec Z.add Z.sub a s in
     prepare a s = Some (Spec.returned o, Spec.after o, t) /\
     published_by t = Spec.published o).
Proof.
  intros Hp Ha. split.
  - destruct (prepare_is_spec a s Hp) as [t Ht]. exists t. exact Ht.
  - intros Hw Hc Hsum.
    destruct (prepare_is_spec a s Hp) as [t Ht]. exists t.
    rewrite <- prepare_spec_exact by lia. exact Ht.
Qed.

Lemma prepare_refines_spec_witness :
  (exists t,
     prepare 10 (fresh 10) = Some (mut_span 0 10, st 10 0 0 10 10, t) /\
     published_by t = [(Watermark, 10)]) /\
  (exists t,
     prepare 4 (st 10 6 7 10 0) = Some (mut_span 0 4, st 10 6 0 7 4, t) /\
     published_by t = [(Watermark, 7); (Write, 0)]) /\
  (exists t,
     prepare 1 (st 10 8 1 10 0) = Some (mut_span 1 1, st 10 8 1 10 1, t) /\
     published_by t = []) /\
  (exists t,
     prepare 7 (st 10 8 1 10 0) = Some (empty_span, st 10 8 1 10 0, t) /\
     published_by t = []).
Proof.
  assert (Hc : 10 < 2 ^ 64) by (rewrite two_64; lia).
  split; [|split; [|split]].
  - assert (Ha : 0 < 10) by lia.
    assert (Hw : 0 <= write (fresh 10) <= capacity (fresh 10)) by (cbn; lia).
    assert (Hsum : write (fresh 10) + 10 < 2 ^ 64)
      by (rewrite two_64; cbn; lia).
    destruct (proj2 (prepare_refines_spec (fresh 10) 10 eq_refl Ha)
                Hw Hc Hsum) as [t Ht].
    exists t. exact Ht.
  - assert (Ha : 0 < 4) by lia.
    assert (Hw : 0 <= write (st 10 6 7 10 0) <= capacity (st 10 6 7 10 0))
      by (cbn; lia).
    assert (Hsum : write (st 10 6 7 10 0) + 4 < 2 ^ 64)
      by (rewrite two_64; cbn; lia).
    destruct (proj2 (prepare_refines_spec (st 10 6 7 10 0) 4 eq_refl Ha)
                Hw Hc Hsum) as [t Ht].
    exists t. exact Ht.
  - assert (Ha : 0 < 1) by lia.
    assert (Hw : 0 <= write (st 10 8 1 10 0) <= capacity (st 10 8 1 10 0))
      by (cbn; lia).
    assert (Hsum : write (st 10 8 1 10 0) + 1 < 2 ^ 64)
      by (rewrite two_64; cbn; lia).
    destruct (proj2 (prepare_refines_spec (st 10 8 1 10 0) 1 eq_refl Ha)
                Hw Hc Hsum) as [t Ht].
    exists t. exact Ht.
  - assert (Ha : 0 < 7) by lia.
    assert (Hw : 0 <= write (st 10 8 1 10 0) <= capacity (st 10 8 1 10 0))
      by (cbn; lia).
    assert (Hsum : write (st 10 8 1 10 0) + 7 < 2 ^ 64)
      by (rewrite two_64; cbn; lia).
    destruct (proj2 (prepare_refines_spec (st 10 8 1 10 0) 7 eq_refl Ha)
                Hw Hc Hsum) as [t Ht].
    exists t. exact Ht.
Defined.

(** [prepare] with a reservation pending. *)
Lemma prepare_pending a s :
  prepared s <> 0 -> prepare a s = Some (empty_span, s, []).
Proof.
  intros Hp. member_unfold.
  destruct (Z.eqb_spec (prepared s) 0); [contradiction|reflexivity].
Qed.

(** Every path of [prepare] that returns the empty span leaves the state as
    it was and stores nothing. *)
Lemma prepare_empty_unchanged a s sp s' t :
  prepare a s = Some (sp, s', t) -> sp = empty_span ->
  s' = s /\ published_by t = [].
Proof.
  intros H Hsp. subst sp. revert H. member_cases; intros H;
    inversion H; subst; auto; discriminate.
Qed.

(** X24. When [prepare(amount)] finds no room by the tests the code makes,
    in the arithmetic of [std::size_t] (a reservation is pending, or neither
    the tail space nor the front region has room, or [write + amount] is not
    below [read] in the wrapped state), it returns the empty span, stores to
    no position and leaves [read], [write], [watermark] and the pending
    length unchanged; it returns the empty span in no other case; for
    [amount > 0] a region of length 0 is the empty span of a failure; and
    the tests are the tests on integers whenever [write <= capacity] and
    [write + amount] is representable. *)
Theorem prepare_failure_changes_nothing s a :
  (Spec.prepare_fails size_add size_sub a s ->
   exists t, prepare a s = Some (empty_span, s, t) /\ published_by t = []) /\
  (forall sp s' t,
     prepare a s = Some (sp, s', t) -> sp = empty_span ->
     Spec.prepare_fails size_add size_sub a s /\
     read s' = read s /\ write s' = write s /\
     watermark s' = watermark s /\ prepared s' = prepared s) /\
  (forall sp s' t,
     0 < a -> prepare a s = Some (sp, s', t) -> size sp = 0 ->
     sp = empty_span) /\
  (0 <= write s <= capacity s -> capacity s < 2 ^ 64 ->
   0 <= a -> write s + a < 2 ^ 64 ->
   (Spec.prepare_fails size_add size_sub a s
    <-> Spec.prepare_fails Z.add Z.sub a s)).
Proof.
  split; [|split; [|split]]; cycle 3.
  { intros Hw Hc Ha Hsum. unfold Spec.prepare_fails, size_add, size_sub.
    rewrite !wrap_small by lia. reflexivity. }
  - intros [Hp | [(Hwr & Htail & Hfront) | (Hwr & Hroom)]].
    + exists []. split; [now apply prepare_pending|reflexivity].
    + destruct (prepare_total a s) as (sp & s' & t & H).
      revert H. member_cases; intros H; inversion H; subst;
        try lia; eauto.
    + destruct (prepare_total a s) as (sp & s' & t & H).
      revert H. member_cases; intros H; inversion H; subst;
        try lia; eauto.
  - intros sp s' t H Hsp.
    destruct (prepare_empty_unchanged a s sp s' t H Hsp) as [-> _].
    split; [|auto]. subst sp. unfold Spec.prepare_fails.
    revert H. member_cases; intros H; inversion H; subst; try discriminate;
      try (left; lia); right; lia.
  - intros sp s' t Ha H Hsize. revert H.
    member_cases; intros H; inversion H; subst; try reflexivity;
      cbn [size mut_span] in Hsize; lia.
Qed.

Lemma prepare_failure_changes_nothing_witness :
  exists t,
    prepare 6 (st 10 6 6 6 0) = Some (empty_span, st 10 6 6 6 0, t) /\
    published_by t = [].
Proof.
  apply (proj1 (prepare_failure_changes_nothing (st 10 6 6 6 0) 6)).
  right. left. vm_compute. repeat split; congruence.
Defined.

(** ** commit *)

(** [commit] in the words of the specification, the sum in [std::size_t]
    arithmetic. *)
Lemma commit_is_spec a s :
  size_t a -> size_t (prepared s) ->
  exists t, commit a s = Some (tt, Spec.commit_spec size_add Z.sub a s, t).
Proof.
  intros Ha Hp. unfold Spec.commit_spec. member_unfold.
  destruct ((prepared s =? 0) || (a =? 0)); [eexists; reflexivity|].
  rewrite min_is_Zmin. unfold size_sub, size_t in *.
  rewrite (wrap_small (prepared s - Z.min a (prepared s))) by lia.
  eexists. reflexivity.
Qed.

Lemma commit_total a s : exists s' t, commit a s = Some (tt, s', t).
Proof. member_cases; eauto. Qed.



(** ** values *)

Lemma values_total s : exists sp t, values s = Some (sp, s, t).
Proof. member_cases; eauto. Qed.

(** [values] in the words of the specification, the lengths in
    [std::size_t] arithmetic. *)
Lemma values_is_spec s :
  size_t (write s) ->
  exists t,
    values s = Some (Spec.values_spec size_sub s, s, t) /\
    published_by t = [].
Proof.
  intros Hw. unfold Spec.values_spec, Spec.interval, Spec.region.
  member_unfold. rewrite (Z.eqb_sym (write s) (read s)).
  destruct (write s >? read s) eqn:Hgt.
  - eexists. split; reflexivity.
  - rewrite Z.gtb_ltb in Hgt. apply Z.ltb_ge in Hgt.
    destruct (Z.ltb_spec (write s) (read s)) as [Hlt|Hge].
    + destruct (Z.eqb_spec (read s) (write s)); [lia|].
      destruct (read s =? watermark s); cbn [negb].
      * unfold size_sub. rewrite Z.sub_0_r, wrap_small by exact Hw.
        eexists. split; reflexivity.
      * eexists. split; reflexivity.
    + destruct (Z.eqb_spec (read s) (write s)); [|lia].
      eexists. split; reflexivity.
Qed.

(** C4. [values()] stores to no position, leaves the state as it is and
    returns [[read, write)] when [write > read], the empty span when
    [write == read], [[read, watermark)] when [write < read] and
    [read != watermark], and [[0, write)] when [write < read] and
    [read == watermark].  The lengths are differences in [std::size_t]
    arithmetic; they are the exact differences whenever [read <= watermark]
    holds in the wrapped state. *)
Theorem values_refines_spec s :
  size_t (read s) -> size_t (write s) -> size_t (watermark s) ->
  (exists t,
     values s = Some (Spec.values_spec size_sub s, s, t) /\
     published_by t = []) /\
  ((write s < read s -> read s <= watermark s) ->
   exists t,
     values s = Some (Spec.values_spec Z.sub s, s, t) /\
     published_by t = []).
Proof.
  intros Hr Hw Hm. split; [now apply values_is_spec|].
  intros Hwrapped. destruct (values_is_spec s Hw) as [t Ht].
  exists t. replace (Spec.values_spec Z.sub s)
    with (Spec.values_spec size_sub s); [exact Ht|].
  unfold Spec.values_spec, Spec.interval, size_sub, size_t in *.
  destruct (write s >? read s) eqn:Hgt.
  - rewrite Z.gtb_ltb in Hgt. apply Z.ltb_lt in Hgt.
    rewrite wrap_small by lia. reflexivity.
  - rewrite Z.gtb_ltb in Hgt. apply Z.ltb_ge in Hgt.
    destruct (Z.eqb_spec (write s) (read s)); [reflexivity|].
    destruct (read s =? watermark s); cbn [negb];
      rewrite wrap_small by lia; reflexivity.
Qed.

Lemma values_refines_spec_witness :
  exists t,
    values (st 10 7 5 7 0) = Some (const_span 0 5, st 10 7 5 7 0, t) /\
    published_by t = [].
Proof.
  assert (H : forall z, 0 <= z < 100 -> size_t z)
    by (unfold size_t; rewrite two_64; lia).
  assert (Hr : size_t (read (st 10 7 5 7 0))) by (apply H; cbn; lia).
  assert (Hw : size_t (write (st 10 7 5 7 0))) by (apply H; cbn; lia).
  assert (Hm : size_t (watermark (st 10 7 5 7 0))) by (apply H; cbn; lia).
  destruct (proj1 (values_refines_spec (st 10 7 5 7 0) Hr Hw Hm)) as [t Ht].
  exists t. exact Ht.
Defined.

(** ** The invariant of the states reached without overflow *)

(** The wrapped branch of [consume] reduces modulo [watermark] at most
    once. *)
Lemma mod_once x m : 0 <= x -> x < 2 * m -> 0 < m ->
  x mod m = if x <? m then x else x - m.
Proof.
  intros H0 H2 Hm. destruct (Z.ltb_spec x m).
  - apply Z.mod_small; lia.
  - symmetry. apply (Z.mod_unique x m 1); lia.
Qed.

Lemma inv_fresh N : 0 <= N -> inv (fresh N).
Proof. intros HN. constructor; cbn; lia. Qed.

(** Each member function keeps the invariant. *)
Lemma inv_prepare N a s s' :
  valid_capacity N -> capacity s = N -> inv s ->
  size_t a -> write s + a < 2 ^ 64 ->
  state_of (prepare a s) = Some s' -> inv s' /\ capacity s' = N.
Proof.
  intros HN Hc [Hr Hw Hp Hres Hm Hwrap] Ha Hsum H. unfold valid_capacity in *.
  revert H. member_cases; intros H; inversion H; subst s'; clear H;
    (split; [constructor|]); try (intros Hlt; apply Hwrap in Hlt as ?);
    try solve [arith]; try solve [fields; auto].
  all: try solve [fields; intros; arith].
Qed.

Lemma inv_commit N a s s' :
  valid_capacity N -> capacity s = N -> inv s -> size_t a ->
  state_of (commit a s) = Some s' -> inv s' /\ capacity s' = N.
Proof.
  intros HN Hc [Hr Hw Hp Hres Hm Hwrap] Ha Hexec. unfold valid_capacity in *.
  revert Hexec. member_cases; intros Hexec; inversion Hexec; subst s';
    clear Hexec.
  1: split; [constructor; auto|auto].
  rewrite !min_is_Zmin. fields. size_arith.
  rewrite !Z.mod_small by lia.
  split; [constructor|]; fields; lia.
Qed.

Lemma inv_values N s s' :
  capacity s = N -> inv s ->
  state_of (values s) = Some s' -> inv s' /\ capacity s' = N.
Proof.
  intros Hc Hinv H. destruct (values_total s) as (sp & t & Hv).
  rewrite Hv in H. cbn in H. inversion H; subst. auto.
Qed.

(** In a state of the invariant [consume] is defined: its modulus is not
    0. *)
Lemma consume_defined a s :
  inv s -> exists s' t, consume a s = Some (tt, s', t).
Proof.
  intros [Hr Hw Hp Hres Hm Hwrap]. member_cases; eauto.
  exfalso. fields.
  assert (Hlt : write_ (block s) < read_ (block s)) by lia.
  apply Hwrap in Hlt. lia.
Qed.

Lemma inv_consume N a s s' :
  valid_capacity N -> capacity s = N -> inv s -> size_t a ->
  state_of (consume a s) = Some s' -> inv s' /\ capacity s' = N.
Proof.
  intros HN Hc [Hr Hw Hp Hres Hm Hwrap] Ha H. unfold valid_capacity in *.
  revert H. member_cases; intros H; inversion H; subst s'; clear H.
  - split; [constructor; auto|auto].
  - rewrite min_is_Zmin. split; [constructor|]; fields; try lia.
    size_arith. Z.div_mod_to_equations. lia.
  - rewrite min_is_Zmin. fields.
    assert (Hlt : write_ (block s) < read_ (block s)) by lia.
    destruct (Hwrap Hlt) as [Hrm Hfree].
    unfold size_add, size_sub.
    rewrite (wrap_small (watermark_ (block s) - read_ (block s)))
      by (rewrite two_64, two_63 in *; lia).
    rewrite (wrap_small (watermark_ (block s) - read_ (block s)
                         + write_ (block s)))
      by (rewrite two_64, two_63 in *; lia).
    set (c := Z.min _ a).
    assert (Hc0 : 0 <= c) by (unfold size_t in Ha; subst c; lia).
    assert (Hc1 : c <= watermark_ (block s) - read_ (block s)
                       + write_ (block s)) by (subst c; lia).
    rewrite (wrap_small (read_ (block s) + c))
      by (rewrite two_64, two_63 in *; lia).
    rewrite mod_once by lia.
    destruct (Z.ltb_spec (read_ (block s) + c) (watermark_ (block s)));
      (split; [constructor|]); fields; auto; try lia.
Qed.

(** Every call permitted by [no_overflow] keeps the invariant. *)
Lemma inv_exec N c s s' :
  valid_capacity N -> capacity s = N -> inv s ->
  size_t (amount_of c) -> no_overflow s c ->
  exec c s = Some s' -> inv s' /\ capacity s' = N.
Proof.
  intros HN Hc Hinv Ha Hok H. destruct c; cbn in *.
  - eapply inv_prepare; eauto.
  - eapply inv_commit; eauto.
  - eapply inv_values; eauto.
  - eapply inv_consume; eauto.
Qed.

Lemma reachable_inv N s :
  valid_capacity N -> reachable_by no_overflow N s ->
  inv s /\ capacity s = N.
Proof.
  intros HN H. induction H as [|s c s' _ [IH1 IH2] Ha Hok Hex].
  - split; [apply inv_fresh; unfold valid_capacity in HN; lia|reflexivity].
  - eapply inv_exec; eauto.
Qed.

(** ** Reaching states by runs *)

(** A permitted run from a reachable state ends in a reachable state. *)
Lemma reachable_run ok N cs : forall s s',
  reachable_by ok N s -> permitted ok cs s -> run cs s = Some s' ->
  reachable_by ok N s'.
Proof.
  induction cs as [|c cs IH]; intros s s' Hs Hadm Hrun; cbn in Hrun.
  - inversion Hrun; subst. exact Hs.
  - destruct Hadm as (Ha & Hok & Hrest).
    destruct (exec c s) as [s1|] eqn:Hex; [|discriminate].
    apply (IH s1 s'); [|exact Hrest|exact Hrun].
    now apply (reachable_call ok N s c s1).
Qed.

(** ** Positions and capacity *)

(** C6, as stated, fails: [prepare(10); commit(10)] on a fresh buffer of
    capacity 10 is at rest with [write == capacity]. *)
Lemma positions_below_capacity_counterexample :
  ~ (forall s, reachable 10 s -> prepared s = 0 ->
       (0 <= read s < 10) /\ (0 <= write s < 10)).
Proof.
  intros H.
  assert (Hs : reachable 10 (st 10 0 10 10 0)).
  { apply (reachable_run any_call 10 [Prepare 10; Commit 10] (fresh 10)).
    - apply reachable_fresh.
    - vm_compute. intuition congruence.
    - reflexivity. }
  destruct (H _ Hs eq_refl) as [_ Hw]. cbn in Hw. lia.
Qed.

(** C6, amended. In every state reached from a fresh buffer by calls none
    of whose [prepare] requests overflows, whether at rest or with a
    reservation pending, [0 <= read <= capacity] and
    [0 <= write <= capacity]. *)
Theorem positions_within_capacity N s :
  valid_capacity N -> reachable_by no_overflow N s ->
  (0 <= read s <= N) /\ (0 <= write s <= N).
Proof.
  intros HN Hs. destruct (reachable_inv N s HN Hs) as [[] Hc]. lia.
Qed.

Lemma positions_within_capacity_witness :
  (0 <= read (st 10 10 10 10 0) <= 10) /\
  (0 <= write (st 10 10 10 10 0) <= 10).
Proof.
  apply (positions_within_capacity 10 (st 10 10 10 10 0)).
  - unfold valid_capacity. rewrite two_63. lia.
  - apply (reachable_run no_overflow 10
             [Prepare 10; Commit 10; Consume 10] (fresh 10)).
    + apply reachable_fresh.
    + vm_compute. intuition congruence.
    + reflexivity.
Defined.

(** ** Regions handed out by prepare *)

(** X9. Without overflow, the region of a successful [prepare] lies inside the
    storage and has the length asked for. *)
Lemma prepare_in_bounds N s a sp s' t :
  valid_capacity N -> reachable_by no_overflow N s ->
  size_t a -> write s + a < 2 ^ 64 ->
  prepare a s = Some (sp, s', t) -> sp <> empty_span ->
  exists offset,
    data sp = Some offset /\ size sp = a /\
    0 <= offset /\ offset + size sp <= N.
Proof.
  intros HN Hs Ha Hsum H Hsp.
  destruct (reachable_inv N s HN Hs) as [[Hr Hw Hp Hres Hm Hwrap] Hc].
  unfold valid_capacity in HN. revert H.
  member_cases; intros H; inversion H; subst; try contradiction;
    eexists; (split; [reflexivity|]); cbn [size mut_span];
    (split; [reflexivity|]); arith.
Qed.

(** C5 fails on the code: in the wrapped state reached by [wrapped_calls]
    on a buffer of capacity 10 ([read = 8], [write = 1], nothing pending),
    the sum [write + amount] of [prepare(SIZE_MAX)] wraps to 0, the test
    [write + amount < read] passes, and the region returned starts at offset
    1 and has [SIZE_MAX] elements. *)
Theorem prepare_region_beyond_storage :
  permitted any_call wrapped_calls (fresh 10) /\
  run wrapped_calls (fresh 10) = Some (st 10 8 1 10 0) /\
  reachable 10 (st 10 8 1 10 0) /\
  size_t SIZE_MAX /\
  size_add 1 SIZE_MAX = 0 /\
  prepare SIZE_MAX (st 10 8 1 10 0)
  = Some (mut_span 1 SIZE_MAX, st 10 8 1 10 SIZE_MAX,
          [Load Read seq_cst 8; Load Write seq_cst 1]) /\
  capacity (st 10 8 1 10 0) < 1 + size (mut_span 1 SIZE_MAX).
Proof.
  assert (Hok : permitted any_call wrapped_calls (fresh 10))
    by (vm_compute; intuition congruence).
  assert (Hrun : run wrapped_calls (fresh 10) = Some (st 10 8 1 10 0))
    by (vm_compute; reflexivity).
  split; [exact Hok|]. split; [exact Hrun|]. split.
  { exact (reachable_run any_call 10 wrapped_calls (fresh 10) _
             (reachable_fresh _ _) Hok Hrun). }
  split; [vm_compute; intuition congruence|].
  split; [reflexivity|]. split; [vm_compute; reflexivity|].
  vm_compute. reflexivity.
Qed.

(** C2 fails on the code.  On a buffer of capacity 10, at the states
    shown, the case analysis of the specification is what [prepare] does in
    the tail placement (watermark set to [write + amount]), in the
    wraparound placement (watermark set to the old [write], then [write] set
    to 0) and in the placement below [read].  In the wrapped state reached
    by [wrapped_calls], with no request overflowing ([read = 8],
    [write = 1], nothing pending), the request [prepare(SIZE_MAX)] falls in
    the last case of the specification: [write < read] and
    [write + amount < read] is false, so it is to fail with an empty region.
    The code computes [write + amount] in [std::size_t], where it wraps to
    0: it records the pending length [SIZE_MAX] and returns the region at
    offset 1 of length [SIZE_MAX]. *)
Theorem prepare_overflow_leaves_case_analysis :
  (* tail placement: specification and code *)
  Spec.prepare_spec Z.add Z.sub 10 (fresh 10)
  = {| Spec.returned := mut_span 0 10; Spec.after := st 10 0 0 10 10;
       Spec.published := [(Watermark, 10)] |} /\
  prepare 10 (fresh 10)
  = Some (mut_span 0 10, st 10 0 0 10 10,
          [Load Read seq_cst 0; Load Write seq_cst 0;
           Store Watermark seq_cst 10]) /\
  (* wraparound placement: specification and code *)
  Spec.prepare_spec Z.add Z.sub 4 (st 10 6 7 10 0)
  = {| Spec.returned := mut_span 0 4; Spec.after := st 10 6 0 7 4;
       Spec.published := [(Watermark, 7); (Write, 0)] |} /\
  prepare 4 (st 10 6 7 10 0)
  = Some (mut_span 0 4, st 10 6 0 7 4,
          [Load Read seq_cst 6; Load Write seq_cst 7;
           Store Watermark seq_cst 7; Store Write seq_cst 0]) /\
  (* placement below read: specification and code *)
  Spec.prepare_spec Z.add Z.sub 3 (st 10 8 1 10 0)
  = {| Spec.returned := mut_span 1 3; Spec.after := st 10 8 1 10 3;
       Spec.published := [] |} /\
  prepare 3 (st 10 8 1 10 0)
  = Some (mut_span 1 3, st 10 8 1 10 3,
          [Load Read seq_cst 8; Load Write seq_cst 1]) /\
  (* the last case: the specification fails the request, the code grants
     it *)
  reachable_by no_overflow 10 (st 10 8 1 10 0) /\
  prepared (st 10 8 1 10 0) = 0 /\
  size_t SIZE_MAX /\ 0 < SIZE_MAX /\
  Spec.prepare_spec Z.add Z.sub SIZE_MAX (st 10 8 1 10 0)
  = {| Spec.returned := empty_span; Spec.after := st 10 8 1 10 0;
       Spec.published := [] |} /\
  prepare SIZE_MAX (st 10 8 1 10 0)
  = Some (mut_span 1 SIZE_MAX, st 10 8 1 10 SIZE_MAX,
          [Load Read seq_cst 8; Load Write seq_cst 1]) /\
  mut_span 1 SIZE_MAX <> empty_span /\
  st 10 8 1 10 SIZE_MAX <> st 10 8 1 10 0.
Proof.
  assert (Hreach : reachable_by no_overflow 10 (st 10 8 1 10 0)).
  { apply (reachable_run no_overflow 10 wrapped_calls (fresh 10));
      [apply reachable_fresh | vm_compute; intuition congruence
      | reflexivity]. }
  assert (Hsize : size_t SIZE_MAX) by (vm_compute; intuition congruence).
  assert (Hpos : 0 < SIZE_MAX) by reflexivity.
  assert (Hspec :
            Spec.prepare_spec Z.add Z.sub SIZE_MAX (st 10 8 1 10 0)
            = {| Spec.returned := empty_span; Spec.after := st 10 8 1 10 0;
                 Spec.published := [] |}) by (vm_compute; reflexivity).
  assert (Hcode :
            prepare SIZE_MAX (st 10 8 1 10 0)
            = Some (mut_span 1 SIZE_MAX, st 10 8 1 10 SIZE_MAX,
                    [Load Read seq_cst 8; Load Write seq_cst 1]))
    by (vm_compute; reflexivity).
  split; [vm_compute; reflexivity|]. split; [vm_compute; reflexivity|].
  split; [vm_compute; reflexivity|]. split; [vm_compute; reflexivity|].
  split; [vm_compute; reflexivity|]. split; [vm_compute; reflexivity|].
  split; [exact Hreach|]. split; [reflexivity|].
  split; [exact Hsize|]. split; [exact Hpos|].
  split; [exact Hspec|]. split; [exact Hcode|].
  split; discriminate.
Qed.

(** C7 fails on the code.  In the wrapped state reached by [wrapped_calls]
    on a buffer of capacity 10, with no request overflowing ([read = 8],
    [write = 1], nothing pending), [prepare(SIZE_MAX)] has no room: the
    request is larger than the storage, and [write + amount] is not below
    [read].  By the specification it returns an empty region and leaves
    every position and the pending length unchanged.  The code computes
    [write + amount] in [std::size_t], where it wraps to 0, so that its own
    test finds room: it returns the region at offset 1 of length [SIZE_MAX]
    and sets the pending length to [SIZE_MAX]. *)
Theorem prepare_overflow_is_no_failure :
  reachable_by no_overflow 10 (st 10 8 1 10 0) /\
  size_t SIZE_MAX /\
  capacity (st 10 8 1 10 0) < SIZE_MAX /\
  Spec.prepare_fails Z.add Z.sub SIZE_MAX (st 10 8 1 10 0) /\
  ~ Spec.prepare_fails size_add size_sub SIZE_MAX (st 10 8 1 10 0) /\
  prepare SIZE_MAX (st 10 8 1 10 0)
  = Some (mut_span 1 SIZE_MAX, st 10 8 1 10 SIZE_MAX,
          [Load Read seq_cst 8; Load Write seq_cst 1]) /\
  mut_span 1 SIZE_MAX <> empty_span /\
  size (mut_span 1 SIZE_MAX) = SIZE_MAX /\
  prepared (st 10 8 1 10 0) = 0 /\
  prepared (st 10 8 1 10 SIZE_MAX) = SIZE_MAX /\
  prepared (st 10 8 1 10 SIZE_MAX) <> prepared (st 10 8 1 10 0).
Proof.
  assert (Hreach : reachable_by no_overflow 10 (st 10 8 1 10 0)).
  { apply (reachable_run no_overflow 10 wrapped_calls (fresh 10));
      [apply reachable_fresh | vm_compute; intuition congruence
      | reflexivity]. }
  assert (Hsize : size_t SIZE_MAX) by (vm_compute; intuition congruence).
  assert (Hcode :
            prepare SIZE_MAX (st 10 8 1 10 0)
            = Some (mut_span 1 SIZE_MAX, st 10 8 1 10 SIZE_MAX,
                    [Load Read seq_cst 8; Load Write seq_cst 1]))
    by (vm_compute; reflexivity).
  split; [exact Hreach|]. split; [exact Hsize|].
  split; [reflexivity|].
  split.
  { right. right. vm_compute. split; [reflexivity|discriminate]. }
  split.
  { vm_compute. intros [Hp | [(Hwr & _) | (_ & Hroom)]];
      [now apply Hp | now apply Hwr | now apply Hroom]. }
  split; [exact Hcode|].
  split; [discriminate|]. split; [reflexivity|]. split; [reflexivity|].
  split; [reflexivity|]. discriminate.
Qed.

(** ** The watermark in the wrapped state *)

(** X11. Without overflow, the watermark bounds both positions in the wrapped
    state, and it is not 0. *)
Lemma wrapped_watermark N s :
  valid_capacity N -> reachable_by no_overflow N s ->
  write s < read s ->
  write s < watermark s /\ read s <= watermark s /\ 0 < watermark s.
Proof.
  intros HN Hs Hlt.
  destruct (reachable_inv N s HN Hs) as [[Hr Hw Hp Hres Hm Hwrap] Hc].
  apply Hwrap in Hlt as ?. lia.
Qed.

(** X12. Without overflow, [consume] never divides by 0: it is defined for every
    amount. *)
Lemma consume_never_undefined N s a :
  valid_capacity N -> reachable_by no_overflow N s ->
  exists s' t, consume a s = Some (tt, s', t).
Proof.
  intros HN Hs. apply consume_defined.
  now destruct (reachable_inv N s HN Hs).
Qed.

(** C10 fails on the code.  [prepare(SIZE_MAX)] succeeds in the wrapped
    state [read = 8], [write = 1] because [write + amount] wraps; the commits
    of [overflow_calls] then carry [write] past [read] and around [2^64] to
    0, and the state is wrapped with [read = 12] above [watermark = 10].
    After the five further calls of [zero_watermark_calls] the state is
    wrapped with [watermark = 0], and [consume] divides by 0. *)
Theorem wrapped_watermark_broken :
  permitted any_call zero_watermark_calls (fresh 10) /\
  run overflow_calls (fresh 10) = Some (st 10 12 0 10 0) /\
  reachable 10 (st 10 12 0 10 0) /\
  write (st 10 12 0 10 0) < read (st 10 12 0 10 0) /\
  watermark (st 10 12 0 10 0) < read (st 10 12 0 10 0) /\
  run zero_watermark_calls (fresh 10) = Some (st 10 2 0 0 0) /\
  reachable 10 (st 10 2 0 0 0) /\
  write (st 10 2 0 0 0) < read (st 10 2 0 0 0) /\
  watermark (st 10 2 0 0 0) = 0 /\
  consume 1 (st 10 2 0 0 0) = None.
Proof.
  assert (Hok : permitted any_call zero_watermark_calls (fresh 10))
    by (vm_compute; intuition congruence).
  assert (Hok' : permitted any_call overflow_calls (fresh 10))
    by (vm_compute; intuition congruence).
  assert (Hrun : run overflow_calls (fresh 10) = Some (st 10 12 0 10 0))
    by (vm_compute; reflexivity).
  assert (Hrun' : run zero_watermark_calls (fresh 10)
                  = Some (st 10 2 0 0 0))
    by (vm_compute; reflexivity).
  split; [exact Hok|]. split; [exact Hrun|]. split.
  { exact (reachable_run any_call 10 overflow_calls (fresh 10) _
             (reachable_fresh _ _) Hok' Hrun). }
  split; [reflexivity|]. split; [reflexivity|]. split; [exact Hrun'|].
  split.
  { exact (reachable_run any_call 10 zero_watermark_calls (fresh 10) _
             (reachable_fresh _ _) Hok Hrun'). }
  split; [reflexivity|]. split; [reflexivity|].
  vm_compute. reflexivity.
Qed.

(** ** consume *)

(** X13. Without overflow in its own sum [read + amount], [consume] is the case
    analysis of the specification, and consuming at least what is available
    leaves the buffer empty. *)
Lemma consume_in_range N s a :
  valid_capacity N -> reachable_by no_overflow N s ->
  size_t a -> read s + a < 2 ^ 64 ->
  exists t,
    consume a s
    = Some (tt,
            (if read s =? write s then s
             else if write s >? read s
                  then with_read (Z.min (read s + a) (write s)) s
                  else with_read
                         ((read s + Z.min (watermark s - read s + write s) a)
                          mod watermark s) s), t) /\
    (available s <= a ->
     forall s', state_of (consume a s) = Some s' -> read s' = write s').
Proof.
  intros HN Hs Ha Hsum.
  destruct (reachable_inv N s HN Hs) as [[Hr Hw Hp Hres Hm Hwrap] Hc].
  unfold valid_capacity, available, size_t in *.
  rewrite Z.geb_leb. member_unfold.
  destruct (Z.eqb_spec (read s) (write s)) as [Heq|Hne].
  { eexists. split; [reflexivity|]. intros _ s' H. inversion H; subst. auto. }
  rewrite Z.gtb_ltb. destruct (Z.ltb_spec (read s) (write s)) as [Hlt|Hge].
  - rewrite min_is_Zmin. unfold size_add. rewrite wrap_small by lia.
    eexists. split; [reflexivity|].
    destruct (Z.leb_spec (read s) (write s)); [|lia].
    intros Hav s' Hex. inversion Hex; subst. fields. lia.
  - assert (Hlt : write s < read s) by lia.
    destruct (Hwrap Hlt) as [Hrm Hfree].
    destruct (Z.eqb_spec (watermark s) 0); [lia|].
    rewrite min_is_Zmin. unfold size_add, size_sub.
    rewrite two_64, two_63 in *.
    rewrite (wrap_small (watermark s - read s)) by (rewrite two_64; lia).
    rewrite (wrap_small (watermark s - read s + write s))
      by (rewrite two_64; lia).
    rewrite (wrap_small (read s + _)) by (rewrite two_64; lia).
    rewrite (Z.min_comm (watermark s - read s + write s) a).
    eexists. split; [reflexivity|].
    destruct (Z.leb_spec (read s) (write s)); [lia|].
    intros Hav s' Hex. inversion Hex; subst. fields.
    rewrite Z.min_r by lia.
    replace (read_ (block s)
             + (watermark_ (block s) - read_ (block s) + write_ (block s)))
      with (write_ (block s) + 1 * watermark_ (block s)) by lia.
    rewrite Z.mod_add by lia. apply Z.mod_small. lia.
Qed.

(** C3 fails on the code.  With [read = 1] and [write = 2] on a buffer of
    capacity 10 (one element available), the sum [read + amount] of
    [consume(SIZE_MAX)] wraps to 0, and [min(0, write)] moves [read] back to
    0, where the exact [min(read + amount, write)] is 2: the buffer is not
    left empty, and the element at offset 0, consumed before, is readable
    again. *)
Theorem consume_overflow_moves_read_back :
  reachable_by no_overflow 10 (st 10 1 2 2 0) /\
  size_t SIZE_MAX /\
  available (st 10 1 2 2 0) = 1 /\
  size_add 1 SIZE_MAX = 0 /\
  Z.min (1 + SIZE_MAX) 2 = 2 /\
  consume SIZE_MAX (st 10 1 2 2 0)
  = Some (tt, st 10 0 2 2 0,
          [Load Read seq_cst 1; Load Write seq_cst 2; Store Read seq_cst 0]) /\
  read (st 10 0 2 2 0) <> write (st 10 0 2 2 0) /\
  result_of (values (st 10 0 2 2 0)) = Some (const_span 0 2).
Proof.
  repeat split; try reflexivity.
  - apply (reachable_run no_overflow 10
             [Prepare 2; Commit 2; Consume 1] (fresh 10)).
    + apply reachable_fresh.
    + vm_compute. intuition congruence.
    + reflexivity.
  - vm_compute. congruence.
  - vm_compute. congruence.
Qed.

(** ** Writing and reading through spans *)

Section StorageFacts.

Context {T : Type}.

(** Elements written at index [i] on are the elements found there. *)
Lemma take_drop_inserts i (xs buffer_ : list T) :
  (i + length xs <= length buffer_)%nat ->
  take (length xs) (drop i (list_inserts i xs buffer_)) = xs.
Proof.
  intros Hlen.
  rewrite <- (take_drop i buffer_) at 1.
  assert (Hi : length (take i buffer_) = i) by (apply length_take_le; lia).
  replace i with (length (take i buffer_) + 0)%nat at 2 by lia.
  rewrite list_inserts_app_r.
  rewrite drop_app_length' by (symmetry; exact Hi).
  rewrite <- (take_drop (length xs) (drop i buffer_)).
  rewrite list_inserts_0_r
    by (rewrite length_take_le; [reflexivity|rewrite length_drop; lia]).
  apply take_app_length.
Qed.

(** Writing [xs] through a region inside the storage succeeds, and reading
    the same region back gives [xs]. *)
Lemma span_write_read offset (xs buffer_ : list T) :
  0 <= offset ->
  offset + Z.of_nat (length xs) <= Z.of_nat (length buffer_) ->
  exists buffer',
    span_write (mut_span offset (Z.of_nat (length xs))) xs buffer_
    = Some buffer' /\
    length buffer' = length buffer_ /\
    span_read (const_span offset (Z.of_nat (length xs))) buffer' = Some xs.
Proof.
  intros Hoff Hend.
  exists (list_inserts (Z.to_nat offset) xs buffer_).
  unfold span_write, span_read. cbn [data size mut_span const_span].
  rewrite length_inserts.
  destruct (Z.leb_spec (Z.of_nat (length xs)) (Z.of_nat (length xs)));
    [|lia].
  destruct (Z.leb_spec 0 offset); [|lia].
  destruct (Z.leb_spec 0 (Z.of_nat (length xs))); [|lia].
  destruct (Z.leb_spec (offset + Z.of_nat (length xs))
              (Z.of_nat (length buffer_))); [|lia].
  cbn [andb]. split; [reflexivity|]. split; [reflexivity|].
  rewrite Nat2Z.id. f_equal. apply take_drop_inserts. lia.
Qed.

End StorageFacts.

(** ** Cycles of prepare, write, commit, values, consume *)

(** A cycle that fits leaves the position inside the storage. *)
Lemma next_position_range N p a :
  0 <= p <= N -> 0 < a -> fits N p a = true ->
  0 <= next_position N p a <= N.
Proof.
  unfold fits, next_position. intros Hp Ha Hfit.
  destruct (Z.leb_spec a (N - p)); [lia|].
  cbn in Hfit. apply Z.ltb_lt in Hfit. lia.
Qed.

Section CycleFacts.

Context {T : Type}.
Variable N : Z.
Hypothesis HN : valid_capacity N.

(** The calls of a cycle, on the states a cycle goes through. *)

(** [prepare] on the empty buffer, tail placement. *)
Lemma prepare_tail p m a :
  0 <= p <= N -> 0 < a <= N - p ->
  prepare a (st N p p m 0)
  = Some (mut_span p a, st N p p (p + a) a,
          [Load Read seq_cst p; Load Write seq_cst p;
           Store Watermark seq_cst (p + a)]).
Proof. unfold valid_capacity in HN. intros Hp Ha. member_eval. Qed.

(** [prepare] on the empty buffer, wraparound placement. *)
Lemma prepare_front p m a :
  0 <= p <= N -> N - p < a -> 0 < a < p ->
  prepare a (st N p p m 0)
  = Some (mut_span 0 a, st N p 0 p a,
          [Load Read seq_cst p; Load Write seq_cst p;
           Store Watermark seq_cst p; Store Write seq_cst 0]).
Proof. unfold valid_capacity in HN. intros Hp Ha Hf. member_eval. Qed.

(** [commit] of the whole reservation. *)
Lemma commit_all r w m a :
  0 <= w -> 0 < a -> w + a <= N ->
  commit a (st N r w m a)
  = Some (tt, st N r (w + a) m 0,
          [Load Write seq_cst w; Store Write seq_cst (w + a)]).
Proof.
  unfold valid_capacity in HN. intros Hw Ha Hsum.
  unfold st. member_cases; fields; try (exfalso; arith).
  rewrite !min_is_Zmin, !Z.min_id. unfold size_sub, size_add.
  rewrite Z.sub_diag, !wrap_small by (rewrite two_64, two_63 in *; lia).
  reflexivity.
Qed.

(** [values] with [write > read]. *)
Lemma values_unwrapped r w m p :
  0 <= r < w -> w <= N ->
  values (st N r w m p)
  = Some (const_span r (w - r), st N r w m p,
          [Load Read seq_cst r; Load Write seq_cst w]).
Proof. unfold valid_capacity in HN. intros Hr Hw. member_eval. Qed.

(** [values] in the wrapped state with the tail consumed. *)
Lemma values_front w m p :
  0 <= w < m ->
  values (st N m w m p)
  = Some (const_span 0 w, st N m w m p,
          [Load Read seq_cst m; Load Write seq_cst w;
           Load Watermark seq_cst m]).
Proof. unfold valid_capacity in HN. intros Hw. member_eval. Qed.

(** [consume] with [write > read] and a representable sum. *)
Lemma consume_unwrapped r w m p a :
  0 <= r < w -> w <= N -> 0 <= a -> r + a < 2 ^ 64 ->
  consume a (st N r w m p)
  = Some (tt, st N (Z.min (r + a) w) w m p,
          [Load Read seq_cst r; Load Write seq_cst w;
           Store Read seq_cst (Z.min (r + a) w)]).
Proof.
  unfold valid_capacity in HN. intros Hr Hw Ha Hsum.
  unfold st. member_cases; fields; try (exfalso; arith).
  rewrite !min_is_Zmin. unfold size_add.
  rewrite !wrap_small by lia. reflexivity.
Qed.

(** [consume] of the front region, in the wrapped state with the tail
    consumed. *)
Lemma consume_front w m p a :
  0 <= w < m -> m <= N -> w <= a ->
  consume a (st N m w m p)
  = Some (tt, st N w w m p,
          [Load Read seq_cst m; Load Write seq_cst w;
           Load Watermark seq_cst m; Store Read seq_cst w]).
Proof.
  unfold valid_capacity in HN. intros Hw Hm Ha.
  unfold st. member_cases; fields; try (exfalso; arith).
  rewrite !min_is_Zmin. unfold size_add, size_sub.
  rewrite Z.sub_diag. rewrite (wrap_small 0) by (rewrite two_64; lia).
  rewrite Z.add_0_l.
  rewrite (wrap_small w) by (rewrite two_64, two_63 in *; lia).
  rewrite Z.min_l by lia.
  rewrite wrap_small by (rewrite two_64, two_63 in *; lia).
  replace (m + w) with (w + 1 * m) by lia.
  rewrite Z.mod_add by lia. rewrite Z.mod_small by lia.
  reflexivity.
Qed.

(** A cycle that fits hands out the region of [regions], shows the
    consumer the elements written and leaves the buffer empty at the next
    position. *)
Lemma cycle_fits (xs : list T) p s buffer_ :
  let a := Z.of_nat (length xs) in
  empty_at N p s -> 0 <= p <= N -> Z.of_nat (length buffer_) = N ->
  0 < a -> fits N p a = true ->
  exists s' buffer',
    cycle xs (s, buffer_)
    = Some (s', buffer',
            (mut_span (if a <=? N - p then p else 0) a, xs)) /\
    empty_at N (next_position N p a) s' /\
    Z.of_nat (length buffer') = N.
Proof.
  intros a (Hc & Hr & Hw & Hpr) Hp Hlen Ha Hfit.
  pose proof HN as HN'. unfold valid_capacity in HN'.
  destruct s as [[c r w m] pr]. fields. subst c r w pr.
  change {| block := {| capacity_ := N; read_ := p; write_ := p;
                        watermark_ := m |}; prepared_ := 0 |}
    with (st N p p m 0).
  unfold fits, next_position in *. unfold cycle. fold a.
  destruct (Z.leb_spec a (N - p)) as [Htail|Htail].
  - (* tail placement *)
    destruct (span_write_read p xs buffer_) as (b' & Hwr & Hlen' & Hrd);
      [lia|fold a; lia|]. fold a in Hwr, Hrd.
    rewrite prepare_tail by lia. cbn [size mut_span].
    destruct (Z.eqb_spec a 0); [lia|]. rewrite Hwr.
    rewrite commit_all by lia.
    rewrite values_unwrapped by lia.
    replace (p + a - p) with a by lia. rewrite Hrd.
    rewrite consume_unwrapped by (rewrite ?two_64, ?two_63 in *; lia).
    rewrite Z.min_id.
    eexists _, _. split; [reflexivity|].
    split; [repeat split|lia].
  - (* wraparound placement *)
    cbn [orb] in Hfit. apply Z.ltb_lt in Hfit.
    destruct (span_write_read 0 xs buffer_) as (b' & Hwr & Hlen' & Hrd);
      [lia|fold a; lia|]. fold a in Hwr, Hrd.
    rewrite prepare_front by lia. cbn [size mut_span].
    destruct (Z.eqb_spec a 0); [lia|]. rewrite Hwr.
    rewrite commit_all by lia. rewrite Z.add_0_l.
    rewrite values_front by lia. rewrite Hrd.
    rewrite consume_front by lia.
    eexists _, _. split; [reflexivity|].
    split; [repeat split|lia].
Qed.

End CycleFacts.

Section CyclesFacts.

Context {T : Type}.
Variable N : Z.
Hypothesis HN : valid_capacity N.

(** With the buffer empty at [p], a request that finds no room, or asks
    for no element, is answered with a region of no element; a request for
    [a > 0] elements with the default span, the state left as it was. *)
Lemma prepare_no_room a p s :
  empty_at N p s -> 0 <= p <= N -> 0 <= a ->
  (0 <? a) && fits N p a = false ->
  exists sp s' t,
    prepare a s = Some (sp, s', t) /\ size sp = 0 /\
    (0 < a -> sp = empty_span /\ s' = s).
Proof.
  intros (Hc & Hr & Hw & Hpr) Hp Ha Hfit.
  pose proof HN as HN'. unfold valid_capacity in HN'.
  destruct s as [[c r w m] pr]. fields. subst c r w pr.
  destruct (prepare_total a
              {| block := {| capacity_ := N; read_ := p; write_ := p;
                             watermark_ := m |}; prepared_ := 0 |})
    as (sp & s' & t & Hprep).
  exists sp, s', t. split; [exact Hprep|].
  assert (Hsize : size sp = 0).
  { unfold fits in Hfit. revert Hprep.
    member_cases; intros Hprep; inversion Hprep; subst;
      cbn [size mut_span empty_span]; try reflexivity;
      destruct Hfit as [Hfit|Hfit]; bool_to_prop; arith. }
  split; [exact Hsize|]. intros Hpos.
  assert (Hsp : sp = empty_span).
  { revert Hprep Hsize.
    member_cases; intros Hprep; inversion Hprep; subst;
      cbn [size mut_span empty_span]; intros Hsize;
      try reflexivity; lia. }
  split; [exact Hsp|].
  now destruct (prepare_empty_unchanged _ _ _ _ _ Hprep Hsp).
Qed.

(** A cycle that finds no room, or asks for no element, stops at its
    [prepare]. *)
Lemma cycle_stops (xs : list T) p s buffer_ :
  let a := Z.of_nat (length xs) in
  empty_at N p s -> 0 <= p <= N ->
  (0 <? a) && fits N p a = false ->
  cycle xs (s, buffer_) = None.
Proof.
  intros a Hs Hp Hfit.
  assert (Ha : 0 <= a) by (subst a; lia).
  destruct (prepare_no_room a p s Hs Hp Ha Hfit)
    as (sp & s' & t & Hprep & Hsize & _).
  unfold cycle. fold a. rewrite Hprep, Hsize. reflexivity.
Qed.

(** Cycles that all fit go through and show the consumer what was
    written. *)
Lemma cycles_fit (xss : list (list T)) : forall p s buffer_,
  empty_at N p s -> 0 <= p <= N -> Z.of_nat (length buffer_) = N ->
  all_fit N p (amounts_of xss) = true ->
  exists s' buffer',
    cycles xss (s, buffer_)
    = Some ((s', buffer'), combine (regions N p (amounts_of xss)) xss) /\
    read s' = write s'.
Proof.
  induction xss as [|xs xss IH]; intros p s buffer_ Hs Hp Hlen Hfit.
  - exists s, buffer_. split; [reflexivity|].
    destruct Hs as (_ & Hr & Hw & _). congruence.
  - cbn [amounts_of map all_fit] in Hfit.
    apply andb_true_iff in Hfit as [Hfit Hrest].
    apply andb_true_iff in Hfit as [Ha Hfit]. apply Z.ltb_lt in Ha.
    destruct (cycle_fits N HN xs p s buffer_ Hs Hp Hlen Ha Hfit)
      as (s1 & b1 & Hcycle & Hs1 & Hlen1).
    destruct (IH _ s1 b1 Hs1 (next_position_range N p _ Hp Ha Hfit)
                Hlen1 Hrest) as (s2 & b2 & Hcycles & Hempty).
    exists s2, b2. split; [|exact Hempty].
    cbn [cycles amounts_of map regions combine].
    rewrite Hcycle. fold (amounts_of xss). rewrite Hcycles. reflexivity.
Qed.

(** Cycles of which one does not fit stop there. *)
Lemma cycles_stop (xss : list (list T)) : forall p s buffer_,
  empty_at N p s -> 0 <= p <= N -> Z.of_nat (length buffer_) = N ->
  all_fit N p (amounts_of xss) = false ->
  cycles xss (s, buffer_) = None.
Proof.
  induction xss as [|xs xss IH]; intros p s buffer_ Hs Hp Hlen Hfit.
  - discriminate.
  - cbn [amounts_of map all_fit] in Hfit. cbn [cycles].
    destruct ((0 <? Z.of_nat (length xs))
              && fits N p (Z.of_nat (length xs))) eqn:Hhere.
    + apply andb_true_iff in Hhere as [Ha Hhere]. apply Z.ltb_lt in Ha.
      destruct (cycle_fits N HN xs p s buffer_ Hs Hp Hlen Ha Hhere)
        as (s1 & b1 & Hcycle & Hs1 & Hlen1).
      rewrite Hcycle. cbn [andb] in Hfit.
      rewrite (IH _ s1 b1 Hs1 (next_position_range N p _ Hp Ha Hhere)
                 Hlen1 Hfit).
      reflexivity.
    + now rewrite (cycle_stops xs p s buffer_ Hs Hp Hhere).
Qed.

(** Cycles of which one does not fit go through up to that one, whose
    [prepare] hands out no element. *)
Lemma cycles_stop_at (xss : list (list T)) : forall p s buffer_,
  empty_at N p s -> 0 <= p <= N -> Z.of_nat (length buffer_) = N ->
  all_fit N p (amounts_of xss) = false ->
  exists before xs rest s1 buffer1 sp s1' t,
    xss = before ++ xs :: rest /\
    all_fit N p (amounts_of before) = true /\
    cycles before (s, buffer_)
    = Some ((s1, buffer1), combine (regions N p (amounts_of before)) before) /\
    prepare (Z.of_nat (length xs)) s1 = Some (sp, s1', t) /\
    size sp = 0 /\
    (0 < Z.of_nat (length xs) -> sp = empty_span /\ s1' = s1).
Proof.
  induction xss as [|xs xss IH]; intros p s buffer_ Hs Hp Hlen Hfit.
  - discriminate.
  - cbn [amounts_of map all_fit] in Hfit.
    destruct ((0 <? Z.of_nat (length xs))
              && fits N p (Z.of_nat (length xs))) eqn:Hhere.
    + apply andb_true_iff in Hhere as [Ha Hhere]. apply Z.ltb_lt in Ha.
      destruct (cycle_fits N HN xs p s buffer_ Hs Hp Hlen Ha Hhere)
        as (s1 & b1 & Hcycle & Hs1 & Hlen1).
      cbn [andb] in Hfit.
      destruct (IH _ s1 b1 Hs1 (next_position_range N p _ Hp Ha Hhere)
                  Hlen1 Hfit)
        as (before & ys & rest & s2 & b2 & sp & s2' & t
            & Hxss & Hbefore & Hcycles & Hprep & Hsize & Hempty).
      exists (xs :: before), ys, rest, s2, b2, sp, s2', t.
      split; [now rewrite Hxss|].
      split.
      { cbn [amounts_of map all_fit].
        destruct (Z.ltb_spec 0 (Z.of_nat (length xs))); [|lia].
        rewrite Hhere. exact Hbefore. }
      split; [|auto].
      cbn [cycles amounts_of map regions combine].
      rewrite Hcycle. fold (amounts_of before). rewrite Hcycles. reflexivity.
    + assert (Ha : 0 <= Z.of_nat (length xs)) by lia.
      destruct (prepare_no_room _ p s Hs Hp Ha Hhere)
        as (sp & s' & t & Hprep & Hsize & Hempty).
      exists [], xs, xss, s, buffer_, sp, s', t.
      repeat split; auto; now apply Hempty.
Qed.

(** Amounts of at most half the capacity always fit. *)
Lemma small_amounts_fit (l : list Z) : forall p,
  0 <= p <= N -> Forall (fun a => 0 < a /\ 2 * a <= N) l ->
  all_fit N p l = true.
Proof.
  induction l as [|a l IH]; intros p Hp Hall; [reflexivity|].
  inversion Hall as [|? ? [Ha Hhalf] Hrest]; subst. cbn [all_fit].
  assert (Hfit : fits N p a = true).
  { unfold fits. destruct (Z.leb_spec a (N - p)); [reflexivity|].
    cbn [orb]. apply Z.ltb_lt. lia. }
  rewrite Hfit. destruct (Z.ltb_spec 0 a); [|lia]. cbn [andb].
  apply IH; [|exact Hrest]. now apply next_position_range.
Qed.

End CyclesFacts.

(** C1, as stated, fails: on a buffer of capacity 10, after a first cycle of
    6 elements ([read == write == 6]) the second cycle of 6 elements finds
    4 elements of tail space and a front region that [read > amount] does
    not open: its [prepare] returns the empty span. *)
Lemma cycles_counterexample :
  Forall (fun xs : list Z => 0 < Z.of_nat (length xs) <= 10)
    [[1; 2; 3; 4; 5; 6]; [7; 8; 9; 10; 11; 12]] /\
  cycle [1; 2; 3; 4; 5; 6] (fresh 10, repeat 0 10)
  = Some (st 10 6 6 6 0, [1; 2; 3; 4; 5; 6; 0; 0; 0; 0],
          (mut_span 0 6, [1; 2; 3; 4; 5; 6])) /\
  result_of (prepare 6 (st 10 6 6 6 0)) = Some empty_span /\
  cycles [[1; 2; 3; 4; 5; 6]; [7; 8; 9; 10; 11; 12]] (fresh 10, repeat 0 10)
  = None.
Proof.
  split; [|split; [|split]].
  - repeat constructor; cbn; lia.
  - vm_compute. reflexivity.
  - vm_compute. reflexivity.
  - vm_compute. reflexivity.
Qed.

(** C1, amended. From a fresh buffer, a sequence of cycles (prepare a
    region for the elements, write them, commit, look at [values()],
    consume as many) goes through exactly when every amount in turn is
    positive and fits: [a <= capacity - p] or [a < p], where [p] is the
    position the cycles before left [read == write] at.  Then each [prepare]
    returns the region of length [a] listed by [regions], the consumer sees
    exactly the elements written, cycle by cycle and in order, and the
    buffer ends empty.  Otherwise the cycles go through, in the same way, up
    to the first amount that is not positive or does not fit, and the
    [prepare] of that cycle returns a region of no element: for a positive
    amount the empty span, with the state left as it was.
    Amounts with [0 < a] and [2 * a <= capacity] always fit. *)
Theorem cycles_roundtrip {T : Type} (N : Z) (buffer_ : list T)
  (xss : list (list T)) :
  valid_capacity N -> Z.of_nat (length buffer_) = N ->
  (all_fit N 0 (amounts_of xss) = true ->
   exists s' buffer',
     cycles xss (fresh N, buffer_)
     = Some ((s', buffer'), combine (regions N 0 (amounts_of xss)) xss) /\
     read s' = write s') /\
  (all_fit N 0 (amounts_of xss) = false ->
   cycles xss (fresh N, buffer_) = None /\
   exists before xs rest s1 buffer1 sp s1' t,
     xss = before ++ xs :: rest /\
     all_fit N 0 (amounts_of before) = true /\
     cycles before (fresh N, buffer_)
     = Some ((s1, buffer1),
             combine (regions N 0 (amounts_of before)) before) /\
     prepare (Z.of_nat (length xs)) s1 = Some (sp, s1', t) /\
     size sp = 0 /\
     (0 < Z.of_nat (length xs) -> sp = empty_span /\ s1' = s1)) /\
  (Forall (fun a => 0 < a /\ 2 * a <= N) (amounts_of xss) ->
   all_fit N 0 (amounts_of xss) = true).
Proof.
  intros HN Hlen.
  assert (Hfresh : empty_at N 0 (fresh N)) by (repeat split).
  assert (H0 : 0 <= 0 <= N) by (unfold valid_capacity in HN; lia).
  split; [|split].
  - intros Hfit. now apply (cycles_fit N HN xss 0 (fresh N) buffer_).
  - intros Hfit. split.
    + now apply (cycles_stop N HN xss 0 (fresh N) buffer_).
    + now apply (cycles_stop_at N HN xss 0 (fresh N) buffer_).
  - intros Hsmall. now apply small_amounts_fit.
Qed.

Lemma cycles_roundtrip_witness :
  (exists s' buffer',
     cycles [[1; 2; 3; 4; 5; 6; 7]; [8; 9; 10]; [11; 12; 13; 14; 15]]
       (fresh 10, repeat 0 10)
     = Some ((s', buffer'),
             [(mut_span 0 7, [1; 2; 3; 4; 5; 6; 7]);
              (mut_span 7 3, [8; 9; 10]);
              (mut_span 0 5, [11; 12; 13; 14; 15])]) /\
     read s' = write s') /\
  (cycles [[1; 2; 3; 4; 5; 6]; [7; 8; 9; 10; 11; 12]] (fresh 10, repeat 0 10)
   = None /\
   exists before xs rest s1 buffer1 sp s1' t,
     [[1; 2; 3; 4; 5; 6]; [7; 8; 9; 10; 11; 12]] = before ++ xs :: rest /\
     all_fit 10 0 (amounts_of before) = true /\
     cycles before (fresh 10, repeat 0 10)
     = Some ((s1, buffer1),
             combine (regions 10 0 (amounts_of before)) before) /\
     prepare (Z.of_nat (length xs)) s1 = Some (sp, s1', t) /\
     size sp = 0 /\
     (0 < Z.of_nat (length xs) -> sp = empty_span /\ s1' = s1)).
Proof.
  assert (HN : valid_capacity 10) by (unfold valid_capacity; rewrite two_63; lia).
  split.
  - apply (proj1 (cycles_roundtrip 10 (repeat 0 10)
                    [[1; 2; 3; 4; 5; 6; 7]; [8; 9; 10]; [11; 12; 13; 14; 15]]
                    HN eq_refl)).
    reflexivity.
  - apply (proj1 (proj2 (cycles_roundtrip 10 (repeat 0 10)
                           [[1; 2; 3; 4; 5; 6]; [7; 8; 9; 10; 11; 12]]
                           HN eq_refl))).
    reflexivity.
Defined.

(** ** Order of the atomic accesses *)

(** X20. Every access to [read], [write] and [watermark] is sequentially
    consistent. *)
Lemma accesses_seq_cst c s :
  Forall (fun e => order_of e = seq_cst) (trace_of_call c s).
Proof. destruct c; cbn [trace_of_call]; member_cases; repeat constructor. Qed.

(** The wraparound placement stores the watermark, then [write]. *)
Lemma prepare_wraparound_trace s a :
  prepared s = 0 -> read s <= write s ->
  size_sub (capacity s) (write s) < a -> a < read s ->
  trace_of (prepare a s)
  = [Load Read seq_cst (read s); Load Write seq_cst (write s);
     Store Watermark seq_cst (write s); Store Write seq_cst 0].
Proof.
  intros Hp Hrw Htail Hfront.
  member_cases; try reflexivity; exfalso; lia.
Qed.

(** In program order, no store of the wraparound placement leaves the
    positions with [write < read] and a watermark other than the old
    [write]. *)
Lemma prepare_wraparound_snapshots s a before rest :
  prepared s = 0 -> read s <= write s ->
  size_sub (capacity s) (write s) < a -> a < read s ->
  trace_of (prepare a s) = before ++ rest ->
  write (apply_trace before s) < read (apply_trace before s) ->
  watermark (apply_trace before s) = write s.
Proof.
  intros Hp Hrw Htail Hfront Htrace.
  rewrite (prepare_wraparound_trace s a Hp Hrw Htail Hfront) in Htrace.
  destruct before as [|e1 [|e2 [|e3 [|e4 [|e5 before]]]]];
    cbn in Htrace; inversion Htrace; subst;
    unfold apply_trace; cbn [fold_left apply_access]; fields;
    try lia; try reflexivity.
Qed.

(** ** The scenarios of [tests/main.cpp] *)

(** "Construction of buffer": the values of a fresh buffer are empty. *)
Example test_construction :
  result_of (values (fresh 10)) = Some empty_span.
Proof. reflexivity. Qed.

(** "Produce consume 1". *)
Example test_produce_consume_1 :
  result_of (prepare 1 (fresh 10)) = Some (mut_span 0 1) /\
  run [Prepare 1; Commit 1] (fresh 10) = Some (st 10 0 1 1 0) /\
  result_of (values (st 10 0 1 1 0)) = Some (const_span 0 1) /\
  cycle [10] (fresh 10, repeat 0 10)
  = Some (st 10 1 1 1 0, [10; 0; 0; 0; 0; 0; 0; 0; 0; 0],
          (mut_span 0 1, [10])).
Proof. repeat split; vm_compute; reflexivity. Qed.

(** "Wraparound": ten elements committed and consumed one at a time, then
    regions of 7 and of 5 elements at the start of the buffer.  The last
    request of the test, [prepare(2)] with [read = 7] and [write = 5], is
    answered with the empty span. *)
Example test_wraparound :
  result_of (prepare 10 (fresh 10)) = Some (mut_span 0 10) /\
  run (Prepare 10 :: concat (repeat [Commit 1; Values; Consume 1] 10))
    (fresh 10) = Some (st 10 10 10 10 0) /\
  result_of (prepare 7 (st 10 10 10 10 0)) = Some (mut_span 0 7) /\
  run [Prepare 7; Commit 7; Consume 7] (st 10 10 10 10 0)
  = Some (st 10 7 7 10 0) /\
  result_of (prepare 5 (st 10 7 7 10 0)) = Some (mut_span 0 5) /\
  run [Prepare 5; Commit 5] (st 10 7 7 10 0) = Some (st 10 7 5 7 0) /\
  result_of (values (st 10 7 5 7 0)) = Some (const_span 0 5) /\
  result_of (prepare 2 (st 10 7 5 7 0)) = Some empty_span.
Proof. repeat split; vm_compute; reflexivity. Qed.

(** ** The owner: handing out the pair of views *)

(** Once the pair is taken, [take_reader_writer] returns nothing and leaves
    the buffer as it is. *)
Lemma take_repeatedly_taken {T : Type} (n : nat) (b : buffer.t T) :
  buffer.rw_taken_ b = true ->
  buffer.take_repeatedly n b = (repeat None n, b).
Proof.
  intros Hb. induction n as [|n IH]; [reflexivity|].
  cbn [buffer.take_repeatedly repeat]. unfold buffer.take_reader_writer.
  rewrite Hb, IH. reflexivity.
Qed.

(** X18. Of any number of calls of [take_reader_writer] on a newly constructed
    buffer, the first returns the pair of views over the fresh control block
    and every later one returns nothing; storage and control block are not
    touched. *)
Theorem take_reader_writer_once {T : Type} (N : Z) (storage : list T)
  (n : nat) :
  buffer.take_repeatedly (S n) (buffer.construct N storage)
  = (Some (fresh N) :: repeat None n,
     buffer.mk storage (block (fresh N)) true).
Proof.
  cbn [buffer.take_repeatedly]. unfold buffer.take_reader_writer.
  cbn [buffer.construct buffer.rw_taken_ buffer.buffer_
       buffer.control_block_].
  rewrite take_repeatedly_taken by reflexivity. reflexivity.
Qed.

(** ** detail::min and detail::max *)

(** X22. [detail::min] and [detail::max] are the minimum and the maximum of
    their arguments. *)
Theorem min_max_extrema (a b : Z) :
  min a b = Z.min a b /\ max a b = Z.max a b.
Proof.
  unfold min, max. rewrite Z.gtb_ltb.
  destruct (Z.ltb_spec a b), (Z.ltb_spec b a); lia.
Qed.

(** ** Who stores to which position *)

(** X19. The consumer's calls store to [read] only, [values] to nothing; the
    producer's calls store to [write] and [watermark] only, [commit] to
    [write] alone. *)
Theorem stores_by_owner (c : call) (s : buffer_state) :
  Forall (fun p =>
            match c with
            | Prepare _ => p = Watermark \/ p = Write
            | Commit _ => p = Write
            | Values => False
            | Consume _ => p = Read
            end)
    (stored_positions (trace_of_call c s)).
Proof.
  destruct c; cbn [trace_of_call]; member_cases;
    cbn [stored_positions published_by flat_map app map fst];
    repeat match goal with
           | |- Forall _ (_ :: _) => constructor
           | |- Forall _ [] => constructor
           end; auto.
Qed.

(** X21. In the wraparound placement [prepare] loads [read] and [write], stores
    the old [write] to [watermark] and only then 0 to [write]; at no point
    of the call do the shared positions show [write < read] with a
    watermark other than the old [write]. *)
Theorem prepare_wraparound_order s a :
  prepared s = 0 -> read s <= write s ->
  size_sub (capacity s) (write s) < a -> a < read s ->
  published_by (trace_of (prepare a s)) = [(Watermark, write s); (Write, 0)] /\
  forall before rest,
    trace_of (prepare a s) = before ++ rest ->
    write (apply_trace before s) < read (apply_trace before s) ->
    watermark (apply_trace before s) = write s /\
    read (apply_trace before s) <= watermark (apply_trace before s).
Proof.
  intros Hp Hrw Htail Hfront.
  rewrite (prepare_wraparound_trace s a Hp Hrw Htail Hfront).
  split; [reflexivity|]. intros before rest Htrace.
  destruct before as [|e1 [|e2 [|e3 [|e4 [|e5 before]]]]];
    cbn in Htrace; inversion Htrace; subst;
    unfold apply_trace; cbn [fold_left apply_access]; fields; lia.
Qed.

Lemma prepare_wraparound_order_witness :
  published_by (trace_of (prepare 7 (st 10 10 10 10 0)))
  = [(Watermark, 10); (Write, 0)].
Proof.
  apply (prepare_wraparound_order (st 10 10 10 10 0) 7);
    vm_compute; congruence.
Defined.

(** ** Witnesses of the facts on states reached without overflow *)

(** Proves that a state is reached by a run given in full. *)
Ltac reach_by cs :=
  match goal with
  | |- reachable_by ?ok ?N _ =>
      apply (reachable_run ok N cs (fresh N));
      [apply reachable_fresh | vm_compute; intuition congruence | reflexivity]
  end.

Ltac capacity_ok := unfold valid_capacity; rewrite two_63; lia.

Ltac size_ok := unfold size_t; rewrite two_64; cbn; lia.

Lemma prepare_in_bounds_witness :
  exists offset,
    data (mut_span 1 3) = Some offset /\ size (mut_span 1 3) = 3 /\
    0 <= offset /\ offset + size (mut_span 1 3) <= 10.
Proof.
  apply (prepare_in_bounds 10 (st 10 8 1 10 0) 3 (mut_span 1 3)
           (st 10 8 1 10 3) [Load Read seq_cst 8; Load Write seq_cst 1]).
  - capacity_ok.
  - reach_by wrapped_calls.
  - size_ok.
  - rewrite two_64. cbn. lia.
  - reflexivity.
  - discriminate.
Defined.

Lemma wrapped_watermark_witness :
  write (st 10 8 1 10 0) < watermark (st 10 8 1 10 0) /\
  read (st 10 8 1 10 0) <= watermark (st 10 8 1 10 0) /\
  0 < watermark (st 10 8 1 10 0).
Proof.
  apply (wrapped_watermark 10 (st 10 8 1 10 0)).
  - capacity_ok.
  - reach_by wrapped_calls.
  - cbn. lia.
Defined.

Lemma consume_never_undefined_witness :
  exists s' t, consume 5 (st 10 8 1 10 0) = Some (tt, s', t).
Proof.
  apply (consume_never_undefined 10 (st 10 8 1 10 0) 5).
  - capacity_ok.
  - reach_by wrapped_calls.
Defined.

Lemma consume_in_range_witness :
  read (st 10 1 1 10 0) = write (st 10 1 1 10 0).
Proof.
  assert (HN : valid_capacity 10) by capacity_ok.
  assert (Hs : reachable_by no_overflow 10 (st 10 8 1 10 0))
    by reach_by wrapped_calls.
  assert (Ha : size_t 5) by size_ok.
  assert (Hsum : read (st 10 8 1 10 0) + 5 < 2 ^ 64)
    by (rewrite two_64; cbn; lia).
  destruct (consume_in_range 10 (st 10 8 1 10 0) 5 HN Hs Ha Hsum)
    as (t & _ & Hdrain).
  apply Hdrain; [vm_compute; congruence|reflexivity].
Defined.

(** ** More on commit *)

(** X15. [commit] moves [write] forward inside the reservation and never changes
    where the reservation ends: [write + prepared] stays the same; and an
    amount of at least the pending length commits all of it. *)
Theorem commit_keeps_reservation_end s a s' t :
  size_t a -> size_t (prepared s) ->
  0 <= write s -> write s + prepared s < 2 ^ 64 ->
  commit a s = Some (tt, s', t) ->
  write s' + prepared s' = write s + prepared s /\
  write s <= write s' /\ 0 <= prepared s' <= prepared s /\
  read s' = read s /\ watermark s' = watermark s /\
  capacity s' = capacity s /\
  (prepared s <= a -> prepared s' = 0).
Proof.
  intros Ha Hp Hw Hsum H.
  destruct (commit_is_spec a s Ha Hp) as [t' Hspec].
  rewrite Hspec in H. inversion H; subst s' t'. clear H Hspec.
  unfold Spec.commit_spec, size_t in *.
  destruct (Z.eqb_spec (prepared s) 0) as [Hz|Hnz]; cbn [orb].
  { repeat split; lia. }
  destruct (Z.eqb_spec a 0) as [Haz|Hanz].
  { repeat split; lia. }
  unfold size_add. rewrite wrap_small by lia. fields.
  repeat split; lia.
Qed.

Lemma commit_keeps_reservation_end_witness :
  write (st 10 0 5 10 0) + prepared (st 10 0 5 10 0)
  = write (st 10 0 2 10 3) + prepared (st 10 0 2 10 3).
Proof.
  apply (commit_keeps_reservation_end (st 10 0 2 10 3) 5 (st 10 0 5 10 0)
           [Load Write seq_cst 2; Store Write seq_cst 5]).
  - size_ok.
  - size_ok.
  - cbn. lia.
  - rewrite two_64. cbn. lia.
  - reflexivity.
Defined.

(** X16. Committing [a] and then [b] elements leaves the state that committing
    [a + b] elements at once leaves, when the sum [a + b] is itself a
    [std::size_t]. *)
Theorem commit_commit s a b :
  size_t a -> size_t b -> size_t (a + b) -> size_t (prepared s) ->
  0 <= write s -> write s + prepared s < 2 ^ 64 ->
  match state_of (commit a s) with
  | Some s1 => state_of (commit b s1)
  | None => None
  end = state_of (commit (a + b) s).
Proof.
  intros Ha Hb Hab Hp Hw Hsum.
  unfold size_t in *. member_unfold. fields.
  destruct (Z.eqb_spec (prepared_ s) 0) as [Hz|Hnz]; cbn [orb].
  { cbn. destruct (Z.eqb_spec (prepared_ s) 0); [reflexivity|lia]. }
  destruct (Z.eqb_spec a 0) as [Haz|Hanz].
  { subst a. cbn [Z.add].
    destruct (Z.eqb_spec (prepared_ s) 0); [lia|]. reflexivity. }
  destruct (Z.eqb_spec (a + b) 0); [lia|].
  cbn [block prepared_ capacity_ read_ write_ watermark_].
  rewrite !min_is_Zmin. unfold size_sub, size_add.
  rewrite (wrap_small (prepared_ s - Z.min a (prepared_ s))) by lia.
  rewrite (wrap_small (write_ (block s) + Z.min a (prepared_ s))) by lia.
  rewrite (wrap_small (write_ (block s) + Z.min (a + b) (prepared_ s)))
    by lia.
  rewrite (wrap_small (prepared_ s - Z.min (a + b) (prepared_ s))) by lia.
  destruct (Z.eqb_spec (prepared_ s - Z.min a (prepared_ s)) 0) as [Hd|Hd];
    cbn [orb].
  { f_equal; f_equal; try lia; f_equal; lia. }
  destruct (Z.eqb_spec b 0) as [Hbz|Hbnz].
  { f_equal; f_equal; try lia; f_equal; lia. }
  cbn [block prepared_ capacity_ read_ write_ watermark_].
  rewrite ?min_is_Zmin.
  rewrite !wrap_small by lia.
  f_equal; f_equal; try lia; f_equal; lia.
Qed.

Lemma commit_commit_witness :
  match state_of (commit 2 (st 10 0 0 10 10)) with
  | Some s1 => state_of (commit 3 s1)
  | None => None
  end = state_of (commit (2 + 3) (st 10 0 0 10 10)).
Proof.
  apply (commit_commit (st 10 0 0 10 10) 2 3).
  - size_ok.
  - size_ok.
  - size_ok.
  - size_ok.
  - cbn. lia.
  - rewrite two_64. cbn. lia.
Defined.

(** ** The region of values *)

(** X10. In a state reached without overflow, the region [values()] returns lies
    inside the storage and does not meet the region reserved and not yet
    committed, [[write, write + prepared)]; it is the empty span exactly
    when [read == write]. *)
Theorem values_in_bounds N s :
  valid_capacity N -> reachable_by no_overflow N s ->
  exists v t,
    values s = Some (v, s, t) /\
    (v = empty_span <-> read s = write s) /\
    (v <> empty_span ->
     exists offset,
       data v = Some offset /\ 0 <= offset /\ 0 <= size v /\
       offset + size v <= N /\
       (offset + size v <= write s \/ write s + prepared s <= offset)).
Proof.
  intros HN Hs.
  destruct (reachable_inv N s HN Hs) as [[Hr Hw Hp Hres Hm Hwrap] Hc].
  unfold valid_capacity in HN.
  member_cases; eexists _, _; (split; [reflexivity|]);
    (split; [split; intros Heq; try discriminate; try reflexivity; lia|]);
    intros Hne; try contradiction;
    eexists; (split; [reflexivity|]); cbn [size const_span];
    try (assert (Hlt : write s < read s) by lia; apply Hwrap in Hlt);
    arith.
Qed.

Lemma values_in_bounds_witness :
  exists v t,
    values (st 10 8 1 10 0) = Some (v, st 10 8 1 10 0, t) /\
    (v = empty_span <-> read (st 10 8 1 10 0) = write (st 10 8 1 10 0)) /\
    (v <> empty_span ->
     exists offset,
       data v = Some offset /\ 0 <= offset /\ 0 <= size v /\
       offset + size v <= 10 /\
       (offset + size v <= write (st 10 8 1 10 0) \/
        write (st 10 8 1 10 0) + prepared (st 10 8 1 10 0) <= offset)).
Proof.
  apply (values_in_bounds 10 (st 10 8 1 10 0)).
  - capacity_ok.
  - reach_by wrapped_calls.
Defined.

(** ** The empty request *)

(** X17. In a state reached without overflow and with nothing pending,
    [prepare(0)] does not fail: it returns the region of length 0 at
    [write], reserves nothing and moves neither [read] nor [write]; only the
    watermark, which counts in the wrapped state alone and is kept there,
    may change. *)
Theorem prepare_zero N s :
  valid_capacity N -> reachable_by no_overflow N s -> prepared s = 0 ->
  exists s' t,
    prepare 0 s = Some (mut_span (write s) 0, s', t) /\
    read s' = read s /\ write s' = write s /\ prepared s' = 0 /\
    capacity s' = capacity s /\
    (write s < read s -> watermark s' = watermark s).
Proof.
  intros HN Hs Hprep.
  destruct (reachable_inv N s HN Hs) as [[Hr Hw Hp Hres Hm Hwrap] Hc].
  unfold valid_capacity in HN.
  member_cases; try (exfalso; arith);
    eexists _, _; (split; [reflexivity|]); fields;
    repeat split; try reflexivity; try lia.
Qed.

Lemma prepare_zero_witness :
  exists s' t,
    prepare 0 (st 10 8 1 10 0) = Some (mut_span 1 0, s', t) /\
    read s' = 8 /\ write s' = 1 /\ prepared s' = 0 /\
    capacity s' = 10 /\
    (write (st 10 8 1 10 0) < read (st 10 8 1 10 0) -> watermark s' = 10).
Proof.
  apply (prepare_zero 10 (st 10 8 1 10 0)).
  - capacity_ok.
  - reach_by wrapped_calls.
  - reflexivity.
Defined.

(** ** Slices of the storage *)

Section SliceFacts.

Context {T : Type}.

Lemma slice_empty from to (buffer_ : list T) :
  to <= from -> slice from to buffer_ = [].
Proof.
  intros H. unfold slice. replace (Z.to_nat (to - from)) with 0%nat by lia.
  reflexivity.
Qed.

Lemma slice_length from to (buffer_ : list T) :
  0 <= from <= to -> to <= Z.of_nat (length buffer_) ->
  Z.of_nat (length (slice from to buffer_)) = to - from.
Proof.
  intros H Hlen. unfold slice. rewrite length_take_le; [lia|].
  rewrite length_drop. lia.
Qed.

Lemma slice_split a b c (buffer_ : list T) :
  0 <= a <= b -> b <= c ->
  slice a c buffer_ = slice a b buffer_ ++ slice b c buffer_.
Proof.
  intros Hab Hbc. unfold slice.
  replace (Z.to_nat (c - a))
    with (Z.to_nat (b - a) + Z.to_nat (c - b))%nat by lia.
  rewrite <- take_take_drop, drop_drop.
  replace (Z.to_nat a + Z.to_nat (b - a))%nat with (Z.to_nat b) by lia.
  reflexivity.
Qed.

Lemma slice_drop k a b (buffer_ : list T) :
  0 <= k -> 0 <= a ->
  drop (Z.to_nat k) (slice a b buffer_) = slice (a + k) b buffer_.
Proof.
  intros Hk Ha. unfold slice.
  replace (Z.to_nat (a + k)) with (Z.to_nat a + Z.to_nat k)%nat by lia.
  rewrite <- drop_drop.
  rewrite (take_drop_commute (drop (Z.to_nat a) buffer_)
             (Z.to_nat (b - (a + k))) (Z.to_nat k)).
  destruct (Z.le_gt_cases k (b - a)) as [Hle|Hgt].
  - replace (Z.to_nat k + Z.to_nat (b - (a + k)))%nat
      with (Z.to_nat (b - a)) by lia.
    reflexivity.
  - replace (Z.to_nat (b - (a + k))) with 0%nat by lia.
    rewrite Nat.add_0_r, !drop_ge; [reflexivity| |];
      rewrite length_take; lia.
Qed.

(** Writing outside a slice leaves the slice as it was. *)
Lemma slice_inserts_outside from to i (xs buffer_ : list T) :
  0 <= from -> 0 <= i ->
  to <= i \/ i + Z.of_nat (length xs) <= from ->
  slice from to (list_inserts (Z.to_nat i) xs buffer_)
  = slice from to buffer_.
Proof.
  intros Hfrom Hi Hout. unfold slice. apply list_eq. intros j.
  rewrite !lookup_take. destruct (decide (j < Z.to_nat (to - from))%nat);
    [|reflexivity].
  rewrite !lookup_drop. destruct Hout as [Hout|Hout].
  - apply list_lookup_inserts_lt. lia.
  - apply list_lookup_inserts_ge. lia.
Qed.

(** The slice written holds the elements written. *)
Lemma slice_inserts_inside i k (xs buffer_ : list T) :
  0 <= i -> 0 <= k <= Z.of_nat (length xs) ->
  i + Z.of_nat (length xs) <= Z.of_nat (length buffer_) ->
  slice i (i + k) (list_inserts (Z.to_nat i) xs buffer_)
  = take (Z.to_nat k) xs.
Proof.
  intros Hi Hk Hlen. unfold slice.
  replace (i + k - i) with k by lia.
  rewrite <- (take_drop_inserts (Z.to_nat i) xs buffer_) at 2 by lia.
  rewrite take_take. f_equal. lia.
Qed.

End SliceFacts.

(** ** The contents of the buffer *)

Section ContentsFacts.

Context {T : Type}.

(** [prepare] leaves the contents as they are, wrapping or not. *)
Lemma contents_prepare a s sp s' t (buffer_ : list T) :
  0 <= a -> prepare a s = Some (sp, s', t) ->
  contents s' buffer_ = contents s buffer_.
Proof.
  intros Ha H. unfold contents. revert H.
  member_cases; intros H; inversion H; subst sp s' t; clear H; fields;
    try reflexivity; try (exfalso; lia).
  rewrite (slice_empty 0 0) by lia. apply app_nil_r.
Qed.

(** What [commit] adds to [write] and takes off the pending length. *)
Lemma commit_state a s s' t :
  inv s -> capacity s < 2 ^ 63 -> size_t a ->
  commit a s = Some (tt, s', t) ->
  write s' = write s + Z.min a (prepared s) /\
  prepared s' = prepared s - Z.min a (prepared s) /\
  read s' = read s /\ watermark s' = watermark s /\
  capacity s' = capacity s.
Proof.
  intros [Hr Hw Hp Hres Hm Hwrap] HN Ha H.
  rewrite two_63 in HN. unfold size_t in Ha. rewrite two_64 in Ha.
  assert (Hps : size_t (prepared s)) by (unfold size_t; rewrite two_64; lia).
  assert (Has : size_t a) by (unfold size_t; rewrite two_64; lia).
  destruct (commit_is_spec a s Has Hps) as [t' Hspec].
  rewrite Hspec in H. inversion H; subst s' t'. clear H Hspec.
  unfold Spec.commit_spec.
  destruct (Z.eqb_spec (prepared s) 0) as [Hz|Hnz]; cbn [orb].
  { repeat split; lia. }
  destruct (Z.eqb_spec a 0) as [Haz|Hanz].
  { repeat split; lia. }
  unfold size_add. rewrite wrap_small by (rewrite two_64; lia). fields.
  repeat split; lia.
Qed.

(** [commit] appends the elements between the old and the new [write]. *)
Lemma contents_commit a s s' t (buffer_ : list T) :
  inv s -> capacity s < 2 ^ 63 -> size_t a ->
  commit a s = Some (tt, s', t) ->
  contents s' buffer_
  = contents s buffer_ ++ slice (write s) (write s') buffer_.
Proof.
  intros Hinv HN Ha H.
  destruct (commit_state a s s' t Hinv HN Ha H)
    as (Hw' & Hp' & Hr' & Hm' & Hc').
  destruct Hinv as [Hr Hw Hp Hres Hm Hwrap]. unfold size_t in Ha.
  unfold contents. rewrite Hr', Hm'.
  destruct (Z.ltb_spec (write s) (read s)) as [Hlt|Hge].
  - destruct (Hwrap Hlt) as [_ Hfree].
    destruct (Z.ltb_spec (write s') (read s)); [|lia].
    rewrite (slice_split 0 (write s) (write s')) by lia.
    now rewrite app_assoc.
  - destruct (Z.ltb_spec (write s') (read s)); [lia|].
    apply slice_split; lia.
Qed.

(** Elements written into the region reserved and not yet committed do not
    change the contents. *)
Lemma contents_reserved_write s offset (xs buffer_ : list T) :
  inv s -> write s <= offset ->
  offset + Z.of_nat (length xs) <= write s + prepared s ->
  contents s (list_inserts (Z.to_nat offset) xs buffer_)
  = contents s buffer_.
Proof.
  intros [Hr Hw Hp Hres Hm Hwrap] Hoff Hend. unfold contents.
  destruct (Z.ltb_spec (write s) (read s)) as [Hlt|Hge].
  - destruct (Hwrap Hlt) as [_ Hfree].
    rewrite !slice_inserts_outside by lia. reflexivity.
  - rewrite slice_inserts_outside by lia. reflexivity.
Qed.

(** The contents are as many as [available] counts. *)
Lemma contents_length s (buffer_ : list T) :
  inv s -> capacity s = Z.of_nat (length buffer_) ->
  Z.of_nat (length (contents s buffer_)) = available s.
Proof.
  intros [Hr Hw Hp Hres Hm Hwrap] Hlen. unfold contents, available.
  rewrite Z.geb_leb.
  destruct (Z.ltb_spec (write s) (read s)) as [Hlt|Hge].
  - destruct (Hwrap Hlt) as [Hrm _].
    destruct (Z.leb_spec (read s) (write s)); [lia|].
    rewrite length_app, Nat2Z.inj_add, !slice_length by lia. lia.
  - destruct (Z.leb_spec (read s) (write s)); [|lia].
    rewrite slice_length by lia. lia.
Qed.

End ContentsFacts.

(** ** The consumer and the contents *)

(** Where [consume] leaves [read], when [read + amount] is representable. *)
Lemma consume_state a s s' t :
  inv s -> capacity s < 2 ^ 63 -> size_t a -> read s + a < 2 ^ 64 ->
  consume a s = Some (tt, s', t) ->
  write s' = write s /\ watermark s' = watermark s /\
  prepared s' = prepared s /\ capacity s' = capacity s /\
  read s'
  = if read s =? write s then read s
    else if read s <? write s then Z.min (read s + a) (write s)
    else
      let c := Z.min (watermark s - read s + write s) a in
      if read s + c <? watermark s then read s + c
      else read s + c - watermark s.
Proof.
  intros [Hr Hw Hp Hres Hm Hwrap] HN Ha Hsum H.
  rewrite two_63 in HN. unfold size_t in Ha. rewrite two_64 in Ha, Hsum.
  revert H. member_unfold.
  destruct (Z.eqb_spec (read s) (write s)) as [Heq|Hne].
  { intros H. inversion H; subst. repeat split; reflexivity. }
  rewrite Z.gtb_ltb. destruct (Z.ltb_spec (read s) (write s)) as [Hlt|Hge].
  - rewrite min_is_Zmin. unfold size_add.
    rewrite wrap_small by (rewrite two_64; lia).
    intros H. inversion H; subst. repeat split; reflexivity.
  - assert (Hlt : write s < read s) by lia.
    destruct (Hwrap Hlt) as [Hrm Hfree].
    destruct (Z.eqb_spec (watermark s) 0); [lia|].
    rewrite min_is_Zmin. unfold size_add, size_sub.
    rewrite (wrap_small (watermark s - read s)) by (rewrite two_64; lia).
    rewrite (wrap_small (watermark s - read s + write s))
      by (rewrite two_64; lia).
    rewrite (wrap_small (read s + _)) by (rewrite two_64; lia).
    rewrite mod_once by lia.
    intros H. inversion H; subst. repeat split; reflexivity.
Qed.

Section ConsumerFacts.

Context {T : Type}.

(** [consume] takes its amount off the front of the contents. *)
Lemma contents_consume a s s' t (buffer_ : list T) :
  inv s -> capacity s = Z.of_nat (length buffer_) -> capacity s < 2 ^ 63 ->
  size_t a -> read s + a < 2 ^ 64 ->
  consume a s = Some (tt, s', t) ->
  contents s' buffer_ = drop (Z.to_nat a) (contents s buffer_).
Proof.
  intros Hinv Hlen HN Ha Hsum H.
  destruct (consume_state a s s' t Hinv HN Ha Hsum H)
    as (Hw' & Hm' & Hp' & Hc' & Hr').
  destruct Hinv as [Hr Hw Hp Hres Hm Hwrap]. unfold size_t in Ha.
  unfold contents. rewrite Hw', Hm'.
  destruct (Z.eqb_spec (read s) (write s)) as [Heq|Hne].
  { rewrite Hr'. destruct (Z.ltb_spec (write s) (read s)); [lia|].
    rewrite slice_empty by lia. now rewrite drop_nil. }
  destruct (Z.ltb_spec (read s) (write s)) as [Hlt|Hge].
  - destruct (Z.ltb_spec (write s) (read s)); [lia|].
    destruct (Z.ltb_spec (write s) (read s')); [lia|].
    rewrite slice_drop by lia. rewrite Hr'.
    destruct (Z.le_gt_cases (read s + a) (write s)).
    + rewrite Z.min_l by lia. reflexivity.
    + rewrite Z.min_r by lia. rewrite !slice_empty by lia. reflexivity.
  - assert (Hlt : write s < read s) by lia.
    destruct (Hwrap Hlt) as [Hrm Hfree].
    destruct (Z.ltb_spec (write s) (read s)); [|lia].
    cbv zeta in Hr'.
    assert (Htail : Z.of_nat (length (slice (read s) (watermark s) buffer_))
                    = watermark s - read s) by (apply slice_length; lia).
    destruct (Z.ltb_spec
                (read s + Z.min (watermark s - read s + write s) a)
                (watermark s)) as [Hin|Hout].
    + assert (Hmin : Z.min (watermark s - read s + write s) a = a) by lia.
      rewrite Hmin in Hr'.
      destruct (Z.ltb_spec (write s) (read s')); [|lia].
      rewrite drop_app_le by lia. rewrite slice_drop by lia.
      rewrite Hr'. reflexivity.
    + destruct (Z.ltb_spec (write s) (read s')); [lia|].
      rewrite drop_app_ge by lia.
      replace (Z.to_nat a - length (slice (read s) (watermark s) buffer_))%nat
        with (Z.to_nat (a - (watermark s - read s))) by lia.
      rewrite slice_drop by lia. rewrite Hr'.
      destruct (Z.le_gt_cases a (watermark s - read s + write s)).
      * rewrite Z.min_r by lia. f_equal. lia.
      * rewrite Z.min_l by lia. rewrite !slice_empty by lia. reflexivity.
Qed.

(** What [values()] shows is the front of the contents: all of them, or, in
    the wrapped state with the tail not yet consumed, the tail. *)
Lemma values_contents s (buffer_ : list T) :
  inv s -> capacity s = Z.of_nat (length buffer_) -> capacity s < 2 ^ 63 ->
  exists v t front,
    values s = Some (v, s, t) /\
    span_read v buffer_ = Some front /\
    Z.of_nat (length front) = size v /\
    contents s buffer_
    = front ++ (if (write s <? read s) && negb (read s =? watermark s)
                then slice 0 (write s) buffer_ else []).
Proof.
  intros [Hr Hw Hp Hres Hm Hwrap] Hlen HN. rewrite two_63 in HN.
  unfold contents. member_unfold. rewrite Z.gtb_ltb.
  destruct (Z.ltb_spec (read s) (write s)) as [Hlt|Hge].
  - destruct (Z.ltb_spec (write s) (read s)); [lia|]. cbn [andb].
    unfold size_sub. rewrite wrap_small by (rewrite two_64; lia).
    eexists _, _, _. split; [reflexivity|].
    unfold span_read. cbn [data size const_span].
    destruct (Z.leb_spec 0 (read s)); [|lia].
    destruct (Z.leb_spec 0 (write s - read s)); [|lia].
    destruct (Z.leb_spec (read s + (write s - read s))
                (Z.of_nat (length buffer_))); [|lia].
    cbn [andb]. split; [reflexivity|]. fold (slice (read s) (write s) buffer_).
    split; [apply slice_length; lia|]. now rewrite app_nil_r.
  - destruct (Z.ltb_spec (write s) (read s)) as [Hlt|Heq]; cbn [andb].
    + destruct (Hwrap Hlt) as [Hrm Hfree].
      destruct (Z.eqb_spec (read s) (watermark s)) as [Htail|Htail];
        cbn [negb].
      * eexists _, _, _. split; [reflexivity|].
        unfold span_read. cbn [data size const_span].
        destruct (Z.leb_spec 0 (write s)); [|lia].
        destruct (Z.leb_spec (0 + write s) (Z.of_nat (length buffer_)));
          [|lia].
        cbn [Z.leb andb]. split; [reflexivity|].
        replace (Z.to_nat (write s)) with (Z.to_nat (write s - 0)) by lia.
        fold (slice 0 (write s) buffer_).
        split; [rewrite slice_length by lia; lia|].
        rewrite slice_empty by lia. now rewrite app_nil_r.
      * unfold size_sub. rewrite wrap_small by (rewrite two_64; lia).
        eexists _, _, _. split; [reflexivity|].
        unfold span_read. cbn [data size const_span].
        destruct (Z.leb_spec 0 (read s)); [|lia].
        destruct (Z.leb_spec 0 (watermark s - read s)); [|lia].
        destruct (Z.leb_spec (read s + (watermark s - read s))
                    (Z.of_nat (length buffer_))); [|lia].
        cbn [andb]. split; [reflexivity|].
        fold (slice (read s) (watermark s) buffer_).
        split; [apply slice_length; lia|reflexivity].
    + eexists _, _, _. split; [reflexivity|].
      unfold span_read. cbn [data size empty_span Z.eqb].
      split; [reflexivity|]. split; [reflexivity|].
      rewrite slice_empty by lia. reflexivity.
Qed.

End ConsumerFacts.

Section DrainFacts.

Context {T : Type}.

(** One round of the consumer takes what [values()] shows off the front of
    the contents; it empties the buffer unless the state is wrapped with the
    tail not yet consumed, and then it leaves the state unwrapped. *)
Lemma drain_step_contents s (buffer_ : list T) :
  inv s -> capacity s = Z.of_nat (length buffer_) ->
  valid_capacity (capacity s) ->
  exists front s1,
    drain_step s buffer_ = Some (front, s1) /\
    inv s1 /\ capacity s1 = capacity s /\
    write s1 = write s /\ prepared s1 = prepared s /\
    contents s buffer_ = front ++ contents s1 buffer_ /\
    (if (write s <? read s) && negb (read s =? watermark s)
     then read s1 <= write s1 else read s1 = write s1).
Proof.
  intros Hinv Hlen HN. pose proof HN as [HN0 HN1].
  destruct (values_contents s buffer_ Hinv Hlen HN1)
    as (v & t & front & Hv & Hread & Hsize & Hfront).
  pose proof (contents_length s buffer_ Hinv Hlen) as Havail.
  rewrite Hfront, length_app, Nat2Z.inj_add in Havail.
  destruct (consume_defined (size v) s Hinv) as (s1 & t1 & Hcons).
  pose proof Hinv as [Hr Hw Hp Hres Hm Hwrap].
  assert (Hbound : 0 <= size v <= available s) by lia.
  assert (Hav : available s <= capacity s).
  { unfold available. rewrite Z.geb_leb.
    destruct (Z.leb_spec (read s) (write s)); [lia|].
    assert (Hlt : write s < read s) by lia. apply Hwrap in Hlt. lia. }
  assert (Hsz : size_t (size v))
    by (unfold size_t; rewrite two_64; rewrite two_63 in HN1; lia).
  assert (Hsum : read s + size v < 2 ^ 64)
    by (rewrite two_64; rewrite two_63 in HN1; lia).
  destruct (consume_state (size v) s s1 t1 Hinv HN1 Hsz Hsum Hcons)
    as (Hw1 & Hm1 & Hp1 & Hc1 & Hr1).
  pose proof (contents_consume (size v) s s1 t1 buffer_ Hinv Hlen HN1 Hsz
                Hsum Hcons) as Hdrop.
  assert (Hinv1 : inv s1 /\ capacity s1 = capacity s).
  { apply (inv_consume (capacity s) (size v) s s1 HN eq_refl Hinv Hsz).
    rewrite Hcons. reflexivity. }
  exists front, s1. unfold drain_step. rewrite Hv, Hread, Hcons.
  split; [reflexivity|]. split; [apply Hinv1|]. split; [exact Hc1|].
  split; [exact Hw1|]. split; [exact Hp1|]. split.
  { rewrite Hdrop, Hfront. rewrite drop_app_length' by lia.
    reflexivity. }
  rewrite Hw1, Hr1. unfold available in *. rewrite Z.geb_leb in *.
  destruct (Z.ltb_spec (write s) (read s)) as [Hlt|Hge]; cbn [andb] in *.
  - destruct (Hwrap Hlt) as [Hrm Hfree].
    destruct (Z.eqb_spec (read s) (write s)); [lia|].
    destruct (Z.ltb_spec (read s) (write s)); [lia|].
    destruct (Z.leb_spec (read s) (write s)); [lia|]. cbv zeta.
    destruct (Z.eqb_spec (read s) (watermark s)) as [Htail|Htail];
      cbn [negb] in *.
    + cbn [length] in Havail.
      destruct (Z.ltb_spec
                  (read s + Z.min (watermark s - read s + write s) (size v))
                  (watermark s)); lia.
    + rewrite slice_length in Havail by lia.
      destruct (Z.ltb_spec
                  (read s + Z.min (watermark s - read s + write s) (size v))
                  (watermark s)); lia.
  - cbn [length] in Havail.
    destruct (Z.leb_spec (read s) (write s)); [|lia].
    destruct (Z.eqb_spec (read s) (write s)); [lia|].
    destruct (Z.ltb_spec (read s) (write s)); lia.
Qed.

(** Two rounds of the consumer take the whole contents, in order, and leave
    the buffer empty. *)
Lemma drain_contents s (buffer_ : list T) :
  inv s -> capacity s = Z.of_nat (length buffer_) ->
  valid_capacity (capacity s) ->
  exists s2,
    drain s buffer_ = Some (contents s buffer_, s2) /\
    read s2 = write s2 /\ write s2 = write s /\ prepared s2 = prepared s.
Proof.
  intros Hinv Hlen HN.
  destruct (drain_step_contents s buffer_ Hinv Hlen HN)
    as (front1 & s1 & Hstep1 & Hinv1 & Hc1 & Hw1 & Hp1 & Hfront1 & Hpos1).
  assert (Hlen1 : capacity s1 = Z.of_nat (length buffer_)) by congruence.
  assert (HN1 : valid_capacity (capacity s1)) by (rewrite Hc1; exact HN).
  destruct (drain_step_contents s1 buffer_ Hinv1 Hlen1 HN1)
    as (front2 & s2 & Hstep2 & Hinv2 & Hc2 & Hw2 & Hp2 & Hfront2 & Hpos2).
  exists s2. unfold drain. rewrite Hstep1, Hstep2.
  assert (Hunwrapped : read s1 <= write s1)
    by (destruct ((write s <? read s) && negb (read s =? watermark s)); lia).
  destruct (Z.ltb_spec (write s1) (read s1)); [lia|]. cbn [andb] in Hpos2.
  assert (Hempty : contents s2 buffer_ = []).
  { unfold contents. destruct (Z.ltb_spec (write s2) (read s2)); [lia|].
    apply slice_empty. lia. }
  rewrite Hfront1, Hfront2, Hempty, app_nil_r.
  repeat split; congruence.
Qed.

End DrainFacts.

(** ** The producer and the contents *)

(** The region of a successful [prepare] is the reservation: it starts at
    [write] and is as long as the pending length. *)
Lemma prepare_region a s sp s1 t offset :
  prepare a s = Some (sp, s1, t) -> data sp = Some offset ->
  size sp = a /\ offset = write s1 /\ prepared s1 = a /\ read s1 = read s.
Proof.
  intros H Hdata. revert H.
  member_cases; intros H; inversion H; subst sp s1 t; clear H;
    cbn [data size mut_span empty_span] in *; try discriminate;
    inversion Hdata; subst offset; fields; repeat split; reflexivity.
Qed.

Section ProducerFacts.

Context {T : Type}.

(** Reserving room for [xs], writing [xs] and committing it appends [xs] to
    the contents. *)
Lemma push_contents N (xs : list T) s buffer_ s' buffer' :
  valid_capacity N -> inv s -> capacity s = N ->
  Z.of_nat (length buffer_) = N ->
  write s + Z.of_nat (length xs) < 2 ^ 64 ->
  push xs (s, buffer_) = Some (s', buffer') ->
  contents s' buffer' = contents s buffer_ ++ xs /\
  inv s' /\ capacity s' = N /\ Z.of_nat (length buffer') = N /\
  exec (Prepare (Z.of_nat (length xs))) s <> None /\
  (forall s1, exec (Prepare (Z.of_nat (length xs))) s = Some s1 ->
              exec (Commit (Z.of_nat (length xs))) s1 = Some s').
Proof.
  intros HN Hinv Hc Hlen Hsum H. unfold push in H.
  set (a := Z.of_nat (length xs)) in *.
  pose proof Hinv as [Hr Hw Hp Hres Hm Hwrap].
  pose proof two_64 as E64.
  assert (Ha0 : 0 <= a) by (subst a; lia).
  assert (Ha : size_t a) by (unfold size_t; lia).
  destruct (prepare a s) as [[[sp s1] t1]|] eqn:Hprep; [|discriminate].
  destruct (data sp) as [offset|] eqn:Hdata; [|discriminate].
  destruct (prepare_region a s sp s1 t1 offset Hprep Hdata)
    as (Hsize & Hoff & Hp1 & Hr1).
  assert (Hinv1 : inv s1 /\ capacity s1 = N).
  { apply (inv_prepare N a s s1 HN Hc Hinv Ha Hsum).
    rewrite Hprep. reflexivity. }
  destruct Hinv1 as [Hinv1 Hc1].
  pose proof Hinv1 as [Hr' Hw' Hp' Hres' Hm' Hwrap'].
  unfold span_write in H. rewrite Hdata, Hsize in H.
  destruct ((Z.of_nat (length xs) <=? a) && (0 <=? offset)
            && (offset + a <=? Z.of_nat (length buffer_)));
    [|discriminate].
  destruct (commit a s1) as [[[u s2] t2]|] eqn:Hcom; [|discriminate].
  destruct u. inversion H; subst s' buffer'. clear H.
  pose proof HN as [_ HN1].
  assert (HN1' : capacity s1 < 2 ^ 63) by (rewrite Hc1; exact HN1).
  destruct (commit_state a s1 s2 t2 Hinv1 HN1' Ha Hcom)
    as (Hw2 & Hp2 & Hr2 & Hm2 & Hc2).
  rewrite Hp1, Z.min_id in Hw2.
  assert (Hinv2 : inv s2 /\ capacity s2 = N).
  { apply (inv_commit N a s1 s2 HN Hc1 Hinv1 Ha).
    rewrite Hcom. reflexivity. }
  split.
  { rewrite (contents_commit a s1 s2 t2 _ Hinv1 HN1' Ha Hcom).
    rewrite (contents_reserved_write s1 offset xs buffer_ Hinv1)
      by (subst a; lia).
    rewrite (contents_prepare a s sp s1 t1 buffer_ Ha0 Hprep).
    f_equal. rewrite Hw2, Hoff.
    rewrite slice_inserts_inside by (subst a; lia).
    apply take_ge. subst a. lia. }
  split; [apply Hinv2|]. split; [apply Hinv2|].
  split; [rewrite length_inserts; exact Hlen|].
  cbn [exec]. rewrite Hprep. cbn [state_of].
  split; [discriminate|].
  intros s1' Hs1'. inversion Hs1'; subst s1'. rewrite Hcom. reflexivity.
Qed.

End ProducerFacts.

(** ** The buffer as a queue

    The facts above, for the states reached from a fresh buffer without
    overflow and a storage of [N] elements. *)

(** X8. [prepare], wrapping or not, succeeding or not, leaves the contents as
    they are: what the consumer is still to see does not change by a
    reservation. *)
Theorem prepare_keeps_contents {T : Type} a s sp s' t (buffer_ : list T) :
  size_t a -> prepare a s = Some (sp, s', t) ->
  contents s' buffer_ = contents s buffer_.
Proof.
  intros [Ha _] H. exact (contents_prepare a s sp s' t buffer_ Ha H).
Qed.

Lemma prepare_keeps_contents_witness :
  contents (st 10 8 0 10 1) [0; 1; 2; 3; 4; 5; 6; 7; 8; 9]
  = contents (st 10 8 10 10 0) [0; 1; 2; 3; 4; 5; 6; 7; 8; 9].
Proof.
  apply (prepare_keeps_contents 1 (st 10 8 10 10 0) (mut_span 0 1)
           (st 10 8 0 10 1)
           [Load Read seq_cst 8; Load Write seq_cst 10;
            Store Watermark seq_cst 10; Store Write seq_cst 0]).
  - size_ok.
  - reflexivity.
Defined.

(** X7. Whatever the producer writes through a span inside the reservation
    [[write, write + prepared)] leaves the contents as they are. *)
Theorem reserved_write_keeps_contents {T : Type} N s sp offset
  (xs buffer_ buffer' : list T) :
  valid_capacity N -> reachable_by no_overflow N s ->
  data sp = Some offset -> write s <= offset ->
  offset + size sp <= write s + prepared s ->
  span_write sp xs buffer_ = Some buffer' ->
  contents s buffer' = contents s buffer_.
Proof.
  intros HN Hs Hdata Hoff Hend H.
  destruct (reachable_inv N s HN Hs) as [Hinv Hc].
  unfold span_write in H. rewrite Hdata in H.
  destruct (Z.leb_spec (Z.of_nat (length xs)) (size sp)); [|discriminate].
  cbn [andb] in H.
  destruct ((0 <=? offset)
            && (offset + size sp <=? Z.of_nat (length buffer_)));
    [|discriminate].
  inversion H; subst buffer'.
  apply contents_reserved_write; [exact Hinv|lia|lia].
Qed.

Lemma reserved_write_keeps_contents_witness :
  contents (st 10 8 0 10 1) [42; 1; 2; 3; 4; 5; 6; 7; 8; 9]
  = contents (st 10 8 0 10 1) [0; 1; 2; 3; 4; 5; 6; 7; 8; 9].
Proof.
  apply (reserved_write_keeps_contents 10 (st 10 8 0 10 1) (mut_span 0 1) 0
           [42]).
  - capacity_ok.
  - reach_by [Prepare 10; Commit 10; Consume 8; Prepare 1].
  - reflexivity.
  - cbn. lia.
  - cbn. lia.
  - reflexivity.
Defined.

(** X6. [commit] appends to the contents the elements stored between the old
    and the new [write], and nothing else changes in them. *)
Theorem commit_appends {T : Type} N s a s' t (buffer_ : list T) :
  valid_capacity N -> reachable_by no_overflow N s -> size_t a ->
  commit a s = Some (tt, s', t) ->
  contents s' buffer_
  = contents s buffer_ ++ slice (write s) (write s') buffer_ /\
  write s' = write s + Z.min a (prepared s).
Proof.
  intros HN Hs Ha H.
  destruct (reachable_inv N s HN Hs) as [Hinv Hc].
  assert (HN1 : capacity s < 2 ^ 63) by (rewrite Hc; apply HN).
  split.
  - exact (contents_commit a s s' t buffer_ Hinv HN1 Ha H).
  - apply (commit_state a s s' t Hinv HN1 Ha H).
Qed.

Lemma commit_appends_witness :
  contents (st 10 8 2 10 1) [0; 1; 2; 3; 4; 5; 6; 7; 8; 9]
  = contents (st 10 8 0 10 3) [0; 1; 2; 3; 4; 5; 6; 7; 8; 9]
    ++ slice (write (st 10 8 0 10 3)) (write (st 10 8 2 10 1))
         [0; 1; 2; 3; 4; 5; 6; 7; 8; 9] /\
  write (st 10 8 2 10 1)
  = write (st 10 8 0 10 3) + Z.min 2 (prepared (st 10 8 0 10 3)).
Proof.
  apply (commit_appends 10 (st 10 8 0 10 3) 2 (st 10 8 2 10 1)
           [Load Write seq_cst 0; Store Write seq_cst 2]).
  - capacity_ok.
  - reach_by [Prepare 10; Commit 10; Consume 8; Prepare 3].
  - size_ok.
  - reflexivity.
Defined.

(** X3. [consume(a)] takes the first [a] elements off the contents, all of them
    when there are fewer, provided [read + a] is representable. *)
Theorem consume_drops {T : Type} N s a s' t (buffer_ : list T) :
  valid_capacity N -> reachable_by no_overflow N s ->
  Z.of_nat (length buffer_) = N ->
  size_t a -> read s + a < 2 ^ 64 ->
  consume a s = Some (tt, s', t) ->
  contents s' buffer_ = drop (Z.to_nat a) (contents s buffer_).
Proof.
  intros HN Hs Hlen Ha Hsum H.
  destruct (reachable_inv N s HN Hs) as [Hinv Hc].
  assert (HN1 : capacity s < 2 ^ 63) by (rewrite Hc; apply HN).
  apply (contents_consume a s s' t buffer_ Hinv); auto. congruence.
Qed.

Lemma consume_drops_witness :
  contents (st 10 1 3 10 0) [0; 1; 2; 3; 4; 5; 6; 7; 8; 9]
  = drop (Z.to_nat 3) (contents (st 10 8 3 10 0) [0; 1; 2; 3; 4; 5; 6; 7; 8; 9]).
Proof.
  apply (consume_drops 10 (st 10 8 3 10 0) 3 (st 10 1 3 10 0)
           [Load Read seq_cst 8; Load Write seq_cst 3;
            Load Watermark seq_cst 10; Store Read seq_cst 1]).
  - capacity_ok.
  - reach_by [Prepare 10; Commit 10; Consume 8; Prepare 3; Commit 3].
  - reflexivity.
  - size_ok.
  - rewrite two_64. cbn. lia.
  - reflexivity.
Defined.

(** X4. What [values()] shows is readable inside the storage and is a prefix of
    the contents, and it is empty only when the contents are. *)
Theorem values_shows_front {T : Type} N s (buffer_ : list T) :
  valid_capacity N -> reachable_by no_overflow N s ->
  Z.of_nat (length buffer_) = N ->
  exists v t front,
    values s = Some (v, s, t) /\
    span_read v buffer_ = Some front /\
    front `prefix_of` contents s buffer_ /\
    (front = [] -> contents s buffer_ = []).
Proof.
  intros HN Hs Hlen.
  destruct (reachable_inv N s HN Hs) as [Hinv Hc].
  assert (HN1 : capacity s < 2 ^ 63) by (rewrite Hc; apply HN).
  assert (Hlen' : capacity s = Z.of_nat (length buffer_)) by congruence.
  destruct (values_contents s buffer_ Hinv Hlen' HN1)
    as (v & t & front & Hv & Hread & Hsize & Hfront).
  exists v, t, front. split; [exact Hv|]. split; [exact Hread|].
  split; [rewrite Hfront; now apply prefix_app_r|].
  intros Hnil. rewrite Hfront, Hnil. cbn [app].
  destruct ((write s <? read s) && negb (read s =? watermark s)) eqn:Hpart;
    [|reflexivity].
  exfalso. bool_to_prop.
  pose proof (contents_length s buffer_ Hinv Hlen') as Havail.
  rewrite Hfront, Hnil in Havail. cbn [app] in Havail.
  destruct Hinv as [Hr Hw Hp Hres Hm Hwrap].
  match goal with Hlt : write s < read s |- _ =>
    destruct (Hwrap Hlt) as [Hrm _] end.
  rewrite slice_length in Havail by lia.
  unfold available in Havail. rewrite Z.geb_leb in Havail.
  destruct (Z.leb_spec (read s) (write s)); lia.
Qed.

Lemma values_shows_front_witness :
  exists v t front,
    values (st 10 8 3 10 0) = Some (v, st 10 8 3 10 0, t) /\
    span_read v [0; 1; 2; 3; 4; 5; 6; 7; 8; 9] = Some front /\
    front `prefix_of`
      contents (st 10 8 3 10 0) [0; 1; 2; 3; 4; 5; 6; 7; 8; 9] /\
    (front = [] ->
     contents (st 10 8 3 10 0) [0; 1; 2; 3; 4; 5; 6; 7; 8; 9] = []).
Proof.
  apply (values_shows_front 10 (st 10 8 3 10 0)).
  - capacity_ok.
  - reach_by [Prepare 10; Commit 10; Consume 8; Prepare 3; Commit 3].
  - reflexivity.
Defined.

(** X5. Two rounds of [values()] and [consume] of what was shown take the
    whole contents, in order, and leave the buffer empty. *)
Theorem drain_takes_all {T : Type} N s (buffer_ : list T) :
  valid_capacity N -> reachable_by no_overflow N s ->
  Z.of_nat (length buffer_) = N ->
  exists s2,
    drain s buffer_ = Some (contents s buffer_, s2) /\
    read s2 = write s2 /\ write s2 = write s /\ prepared s2 = prepared s.
Proof.
  intros HN Hs Hlen.
  destruct (reachable_inv N s HN Hs) as [Hinv Hc].
  apply drain_contents; [exact Hinv|congruence|rewrite Hc; exact HN].
Qed.

Lemma drain_takes_all_witness :
  exists s2,
    drain (st 10 8 3 10 0) [0; 1; 2; 3; 4; 5; 6; 7; 8; 9]
    = Some ([8; 9; 0; 1; 2], s2) /\
    read s2 = write s2 /\ write s2 = 3 /\ prepared s2 = 0.
Proof.
  apply (drain_takes_all 10 (st 10 8 3 10 0) [0; 1; 2; 3; 4; 5; 6; 7; 8; 9]).
  - capacity_ok.
  - reach_by [Prepare 10; Commit 10; Consume 8; Prepare 3; Commit 3].
  - reflexivity.
Defined.

(** X2. Reserving room for [xs], writing [xs] into the region and committing it
    appends [xs] to the contents, whatever the state and wherever the region
    is placed; the state it leaves is again reached without overflow. *)
Theorem push_appends {T : Type} N (xs : list T) s buffer_ s' buffer' :
  valid_capacity N -> reachable_by no_overflow N s ->
  Z.of_nat (length buffer_) = N ->
  write s + Z.of_nat (length xs) < 2 ^ 64 ->
  push xs (s, buffer_) = Some (s', buffer') ->
  contents s' buffer' = contents s buffer_ ++ xs /\
  reachable_by no_overflow N s' /\ Z.of_nat (length buffer') = N.
Proof.
  intros HN Hs Hlen Hsum H.
  destruct (reachable_inv N s HN Hs) as [Hinv Hc].
  destruct (push_contents N xs s buffer_ s' buffer' HN Hinv Hc Hlen Hsum H)
    as (Hcont & _ & _ & Hlen' & Hprep & Hcom).
  split; [exact Hcont|]. split; [|exact Hlen'].
  pose proof two_64 as E64. destruct Hinv as [_ Hw _ _ _ _].
  assert (Ha : size_t (Z.of_nat (length xs))) by (unfold size_t; lia).
  destruct (exec (Prepare (Z.of_nat (length xs))) s) as [s1|] eqn:Hs1;
    [|contradiction].
  apply (reachable_call no_overflow N s1 (Commit (Z.of_nat (length xs))) s');
    [|exact Ha|exact I|now apply Hcom].
  now apply (reachable_call no_overflow N s
               (Prepare (Z.of_nat (length xs))) s1).
Qed.

Lemma push_appends_witness :
  contents (st 10 8 3 10 0) [0; 42; 43; 3; 4; 5; 6; 7; 8; 9]
  = contents (st 10 8 1 10 0) [0; 1; 2; 3; 4; 5; 6; 7; 8; 9] ++ [42; 43].
Proof.
  apply (push_appends 10 [42; 43] (st 10 8 1 10 0)
           [0; 1; 2; 3; 4; 5; 6; 7; 8; 9]
           (st 10 8 3 10 0) [0; 42; 43; 3; 4; 5; 6; 7; 8; 9]).
  - capacity_ok.
  - reach_by wrapped_calls.
  - reflexivity.
  - rewrite two_64. cbn. lia.
  - reflexivity.
Defined.

(** X1. First in, first out: if draining the buffer yields [old], then after
    reserving, writing and committing [xs] draining yields [old] followed
    by [xs]. *)
Theorem push_then_drain {T : Type} N (xs old : list T) s buffer_ s0
  s' buffer' :
  valid_capacity N -> reachable_by no_overflow N s ->
  Z.of_nat (length buffer_) = N ->
  write s + Z.of_nat (length xs) < 2 ^ 64 ->
  drain s buffer_ = Some (old, s0) ->
  push xs (s, buffer_) = Some (s', buffer') ->
  exists s2,
    drain s' buffer' = Some (old ++ xs, s2) /\ read s2 = write s2.
Proof.
  intros HN Hs Hlen Hsum Hold H.
  destruct (reachable_inv N s HN Hs) as [Hinv Hc].
  destruct (drain_contents s buffer_ Hinv) as (s0' & Hdrain & _);
    [congruence|rewrite Hc; exact HN|].
  rewrite Hdrain in Hold. inversion Hold; subst old s0'. clear Hold.
  destruct (push_contents N xs s buffer_ s' buffer' HN Hinv Hc Hlen Hsum H)
    as (Hcont & Hinv' & Hc' & Hlen' & _).
  destruct (drain_contents s' buffer' Hinv') as (s2 & Hdrain' & Hempty & _);
    [congruence|rewrite Hc'; exact HN|].
  exists s2. rewrite Hdrain', Hcont. split; [reflexivity|exact Hempty].
Qed.

Lemma push_then_drain_witness :
  exists s2,
    drain (st 10 8 3 10 0) [0; 42; 43; 3; 4; 5; 6; 7; 8; 9]
    = Some ([8; 9; 0] ++ [42; 43], s2) /\ read s2 = write s2.
Proof.
  apply (push_then_drain 10 [42; 43] [8; 9; 0] (st 10 8 1 10 0)
           [0; 1; 2; 3; 4; 5; 6; 7; 8; 9] (st 10 1 1 10 0)
           (st 10 8 3 10 0) [0; 42; 43; 3; 4; 5; 6; 7; 8; 9]).
  - capacity_ok.
  - reach_by wrapped_calls.
  - reflexivity.
  - rewrite two_64. cbn. lia.
  - reflexivity.
  - reflexivity.
Defined.

(** ** Consuming in steps *)

(** Two states with the same five fields are the same state. *)
Lemma buffer_state_ext s1 s2 :
  capacity s1 = capacity s2 -> read s1 = read s2 -> write s1 = write s2 ->
  watermark s1 = watermark s2 -> prepared s1 = prepared s2 -> s1 = s2.
Proof.
  destruct s1 as [[c1 r1 w1 m1] p1], s2 as [[c2 r2 w2 m2] p2].
  fields. intros. congruence.
Qed.

(** X14. Consuming [a] and then [b] elements leaves the state that consuming
    [a + b] elements at once leaves, in every state reached without
    overflow and as long as [read + a + b] is representable. *)
Theorem consume_consume N s a b :
  valid_capacity N -> reachable_by no_overflow N s ->
  size_t a -> size_t b -> read s + a + b < 2 ^ 64 ->
  match state_of (consume a s) with
  | Some s1 => state_of (consume b s1)
  | None => None
  end = state_of (consume (a + b) s).
Proof.
  intros HN Hs Ha Hb Hsum.
  destruct (reachable_inv N s HN Hs) as [Hinv Hc].
  pose proof two_64 as E64. pose proof two_63 as E63.
  pose proof HN as [HN0 HN1]. unfold size_t in Ha, Hb.
  assert (HNs : capacity s < 2 ^ 63) by lia.
  assert (Ha' : size_t a) by (unfold size_t; lia).
  assert (Hb' : size_t b) by (unfold size_t; lia).
  pose proof Hinv as [Hr Hw Hp Hres Hm Hwrap].
  assert (Hab : size_t (a + b)) by (unfold size_t; lia).
  destruct (consume_defined a s Hinv) as (s1 & t1 & H1). rewrite H1.
  cbn [state_of].
  assert (Hinv1 : inv s1 /\ capacity s1 = N).
  { apply (inv_consume N a s s1 HN Hc Hinv Ha'). rewrite H1. reflexivity. }
  destruct Hinv1 as [Hinv1 Hc1].
  destruct (consume_defined b s1 Hinv1) as (s2 & t2 & H2). rewrite H2.
  destruct (consume_defined (a + b) s Hinv) as (s3 & t3 & H3). rewrite H3.
  cbn [state_of]. f_equal.
  destruct (consume_state a s s1 t1 Hinv HNs Ha' ltac:(lia) H1)
    as (Hw1 & Hm1 & Hp1 & Hcap1 & Hr1).
  pose proof Hinv1 as [Hr' _ _ _ _ _].
  assert (Hstep : read s1 <= read s + a).
  { rewrite Hr1. cbv zeta.
    destruct (Z.eqb_spec (read s) (write s)); [lia|].
    destruct (Z.ltb_spec (read s) (write s)); [lia|].
    destruct (Z.ltb_spec
                (read s + Z.min (watermark s - read s + write s) a)
                (watermark s)); lia. }
  destruct (consume_state b s1 s2 t2 Hinv1 ltac:(lia) Hb' ltac:(lia) H2)
    as (Hw2 & Hm2 & Hp2 & Hcap2 & Hr2).
  destruct (consume_state (a + b) s s3 t3 Hinv HNs Hab ltac:(lia) H3)
    as (Hw3 & Hm3 & Hp3 & Hcap3 & Hr3).
  apply buffer_state_ext; try congruence.
  rewrite Hr2, Hr3, Hw1, Hm1, Hr1. cbv zeta.
  assert (Hwm : write s < read s -> read s <= watermark s /\ 0 < watermark s).
  { intros Hlt. apply Hwrap in Hlt. lia. }
  clear - Ha Hb Hsum Hr Hw Hm Hwm E64.
  repeat match goal with
         | |- context [if ?x =? ?y then _ else _] =>
             destruct (Z.eqb_spec x y)
         | |- context [if ?x <? ?y then _ else _] =>
             destruct (Z.ltb_spec x y)
         end; lia.
Qed.

Lemma consume_consume_witness :
  match state_of (consume 1 (st 10 8 3 10 0)) with
  | Some s1 => state_of (consume 3 s1)
  | None => None
  end = state_of (consume (1 + 3) (st 10 8 3 10 0)).
Proof.
  apply (consume_consume 10 (st 10 8 3 10 0) 1 3).
  - capacity_ok.
  - reach_by [Prepare 10; Commit 10; Consume 8; Prepare 3; Commit 3].
  - size_ok.
  - size_ok.
  - rewrite two_64. cbn. lia.
Defined.
